(** * Shallow embedding of picotrx4m (RP2040 firmware): src/receiver.rs and src/lights.rs *)

From Stdlib Require Import ZArith List Bool Lia.
From Stdlib Require Strings.Byte.
Import ListNotations.
Open Scope Z_scope.

(** ** src/receiver.rs *)
Module Receiver.

(** The three receiver inputs (gpio3, gpio5, gpio4) and the two PWM slices
    counting the high time of steering and throttle. *)
Inductive Input := InSteering | InThrottle | InUpdate.
Inductive SliceId := SlicePwm1 | SlicePwm2.

(** Pin and slice handles are zero-sized, type-indexed singletons in
    rp2040-hal ([Pin<Gpio3, ..>], [Slice<Pwm1, ..>]): the type says which
    hardware block a handle drives. *)
Inductive Gpio3 := gpio3.
Inductive Gpio4 := gpio4.
Inductive Gpio5 := gpio5.
Inductive Pwm1 := pwm1.
Inductive Pwm2 := pwm2.

Class PinId (P : Type) := pin_input : P -> Input.
Class SliceNum (S : Type) := slice_id : S -> SliceId.
#[export] Instance PinId_Gpio3 : PinId Gpio3 := fun _ => InSteering.
#[export] Instance PinId_Gpio5 : PinId Gpio5 := fun _ => InThrottle.
#[export] Instance PinId_Gpio4 : PinId Gpio4 := fun _ => InUpdate.
#[export] Instance SliceNum_Pwm1 : SliceNum Pwm1 := fun _ => SlicePwm1.
#[export] Instance SliceNum_Pwm2 : SliceNum Pwm2 := fun _ => SlicePwm2.

(** [struct Globals] *)
Record Globals := mkGlobals {
  steering_pin : Gpio3;
  steering_pwm : Pwm1;
  throttle_pin : Gpio5;
  throttle_pwm : Pwm2;
  update_pin : Gpio4
}.

(** [rp2040_hal::Timer] handle. *)
Inductive Timer := TimerHandle.

(** [struct TimerPair]; an [Instant] is a u64 count of microseconds. *)
Record TimerPair := mkTimerPair {
  timer : option Timer;
  last_update : Z
}.

Definition TimerPair_default : TimerPair :=
  {| timer := None; last_update := 0 |}.

(** Hardware registers the receiver touches: the latched EdgeLow interrupt
    status of each input, the 16-bit counters of the two PWM slices and the
    64-bit microsecond counter of TIMER. *)
Record Hw := mkHw {
  pending_steering : bool;
  pending_throttle : bool;
  pending_update : bool;
  counter_pwm1 : Z;
  counter_pwm2 : Z;
  timer_counter : Z
}.

Definition pending (h : Hw) (p : Input) : bool :=
  match p with
  | InSteering => pending_steering h
  | InThrottle => pending_throttle h
  | InUpdate => pending_update h
  end.

Definition set_pending (h : Hw) (p : Input) (b : bool) : Hw :=
  let '(mkHw ps pt pu c1 c2 tc) := h in
  match p with
  | InSteering => mkHw b pt pu c1 c2 tc
  | InThrottle => mkHw ps b pu c1 c2 tc
  | InUpdate => mkHw ps pt b c1 c2 tc
  end.

Definition counter (h : Hw) (sl : SliceId) : Z :=
  match sl with
  | SlicePwm1 => counter_pwm1 h
  | SlicePwm2 => counter_pwm2 h
  end.

Definition set_counter_reg (h : Hw) (sl : SliceId) (v : Z) : Hw :=
  let '(mkHw ps pt pu c1 c2 tc) := h in
  match sl with
  | SlicePwm1 => mkHw ps pt pu v c2 tc
  | SlicePwm2 => mkHw ps pt pu c1 v tc
  end.

Definition set_timer_counter (h : Hw) (v : Z) : Hw :=
  let '(mkHw ps pt pu c1 c2 _) := h in mkHw ps pt pu c1 c2 v.

(** The two [static AtomicU16] slots. *)
Inductive AtomicU16 := ASTEERING | ATHROTTLE.
Inductive Ordering := Release | Acquire.

(** Whole-program state: hardware, the statics of receiver.rs, the
    [static mut GLOBALS] local to [IO_IRQ_BANK0], the NVIC mask of
    IO_IRQ_BANK0 and whether the TIMER/PWM peripherals have been moved into
    [initialize_receiver] (they are singletons, so this happens once). *)
Record State := mkState {
  hw : Hw;
  STEERING : Z;
  THROTTLE : Z;
  LAST_UPDATE : TimerPair;
  GLOBAL_PINS : option Globals;
  GLOBALS : option Globals;
  nvic_unmasked : bool;
  peripherals_taken : bool
}.

Definition atomic (s : State) (a : AtomicU16) : Z :=
  match a with ASTEERING => STEERING s | ATHROTTLE => THROTTLE s end.

(** Observable hardware and memory operations, in program order. *)
Inductive Action :=
| AGetCounter (sl : SliceId)
| ASetCounter (sl : SliceId) (v : Z)
| AClearInterrupt (p : Input)
| AStore (a : AtomicU16) (v : Z) (o : Ordering).

(** A state-and-trace monad for the code of receiver.rs. *)
Definition M (A : Type) := State -> A * State * list Action.

Definition ret {A} (a : A) : M A := fun s => (a, s, []).
Definition bind {A B} (m : M A) (k : A -> M B) : M B :=
  fun s => let '(a, s1, l1) := m s in
           let '(b, s2, l2) := k a s1 in (b, s2, l1 ++ l2).

Notation "x <- m ;; k" := (bind m (fun x => k))
  (at level 61, m at next level, right associativity).
Notation "m ;; k" := (bind m (fun _ => k)) (at level 61, right associativity).

Definition gets {A} (f : State -> A) : M A := fun s => (f s, s, []).
Definition modify (f : State -> State) : M unit := fun s => (tt, f s, []).
Definition emit (a : Action) : M unit := fun s => (tt, s, [a]).

(** The result of a query. *)
Definition query {A} (m : M A) (s : State) : A :=
  let '(a, _, _) := m s in a.

(** [critical_section::with]: on the single-core configuration used here it
    masks interrupts; as every step of the model below (an interrupt handler
    run, a main-context query) is already atomic, the body runs as is. *)
Definition critical_section {A} (body : M A) : M A := body.

Definition with_hw (f : Hw -> Hw) (s : State) : State :=
  let '(mkState h st th lu gp gl nv pk) := s in mkState (f h) st th lu gp gl nv pk.

Definition with_atomic (a : AtomicU16) (v : Z) (s : State) : State :=
  let '(mkState h st th lu gp gl nv pk) := s in
  match a with
  | ASTEERING => mkState h v th lu gp gl nv pk
  | ATHROTTLE => mkState h st v lu gp gl nv pk
  end.

Definition with_LAST_UPDATE (p : TimerPair) (s : State) : State :=
  let '(mkState h st th _ gp gl nv pk) := s in mkState h st th p gp gl nv pk.

Definition with_GLOBAL_PINS (g : option Globals) (s : State) : State :=
  let '(mkState h st th lu _ gl nv pk) := s in mkState h st th lu g gl nv pk.

Definition with_GLOBALS (g : option Globals) (s : State) : State :=
  let '(mkState h st th lu gp _ nv pk) := s in mkState h st th lu gp g nv pk.

Definition with_nvic_unmasked (s : State) : State :=
  let '(mkState h st th lu gp gl _ pk) := s in mkState h st th lu gp gl true pk.

Definition with_peripherals_taken (s : State) : State :=
  let '(mkState h st th lu gp gl nv _) := s in mkState h st th lu gp gl nv true.

(** HAL operations. *)
Definition interrupt_status {P} `{PinId P} (p : P) : M bool :=
  gets (fun s => pending (hw s) (pin_input p)).

Definition clear_interrupt {P} `{PinId P} (p : P) : M unit :=
  emit (AClearInterrupt (pin_input p));;
  modify (with_hw (fun h => set_pending h (pin_input p) false)).

Definition get_counter {S} `{SliceNum S} (sl : S) : M Z :=
  emit (AGetCounter (slice_id sl));;
  gets (fun s => counter (hw s) (slice_id sl)).

Definition set_counter {S} `{SliceNum S} (sl : S) (v : Z) : M unit :=
  emit (ASetCounter (slice_id sl) v);;
  modify (with_hw (fun h => set_counter_reg h (slice_id sl) v)).

Definition store (a : AtomicU16) (v : Z) (o : Ordering) : M unit :=
  emit (AStore a v o);;
  modify (with_atomic a v).

Definition load (a : AtomicU16) (o : Ordering) : M Z :=
  gets (fun s => atomic s a).

(** [Timer::get_counter]: the current u64 microsecond instant. *)
Definition timer_get_counter (t : Timer) : M Z :=
  gets (fun s => timer_counter (hw s)).

(** [RefCell<Option<Globals>>::take] on [GLOBAL_PINS]. *)
Definition take_GLOBAL_PINS : M (option Globals) :=
  g <- gets GLOBAL_PINS;;
  modify (with_GLOBAL_PINS None);;
  ret g.

(** fugit 0.3: instants on u64 ticks are ordered modulo wrap-around,
    [a >= b] when the ticks are equal or [a.wrapping_sub(b) <= u64::MAX / 2]. *)
Definition instant_ge (a b : Z) : bool :=
  (a =? b) || ((a - b) mod 2 ^ 64 <=? (2 ^ 64 - 1) / 2).

(** [Instant - Instant] is [checked_duration_since]: the wrapping difference
    when [a >= b]; otherwise the subtraction panics ("Sub failed! Other >
    self"), which is None here. Durations of different tick rates [NOM/DENOM]
    are compared by cross multiplication. *)
Definition instant_sub (a b : Z) : option Z :=
  if instant_ge a b then Some ((a - b) mod 2 ^ 64) else None.

Definition duration_gt (t1 nom1 denom1 t2 nom2 denom2 : Z) : bool :=
  t2 * nom2 * denom1 <? t1 * nom1 * denom2.

(** [MillisDurationU64::millis(100)] compared with a microsecond duration. *)
Definition exceeds_100ms (delta_us : Z) : bool :=
  duration_gt delta_us 1 1000000 100 1 1000.

(** [impl TimerWatchdog for Mutex<RefCell<TimerPair>>] on [LAST_UPDATE]:
    Some of the result, or None where [current - pair.last_update] panics. *)
Definition has_watchdog_expired : M (option bool) :=
  critical_section (
    pair <- gets LAST_UPDATE;;
    match timer pair with
    | Some t =>
        current <- timer_get_counter t;;
        match instant_sub current (last_update pair) with
        | Some delta => ret (Some (exceeds_100ms delta))
        | None => ret None
        end
    | None => ret (Some true)
    end).

(** [Receiver::steering] and [Receiver::throttle]. *)
Definition steering : M Z := load ASTEERING Acquire.
Definition throttle : M Z := load ATHROTTLE Acquire.

Definition is_none {A} (o : option A) : bool :=
  match o with None => true | Some _ => false end.

(** [fn IO_IRQ_BANK0]. *)
Definition IO_IRQ_BANK0 : M unit :=
  cache <- gets GLOBALS;;
  (if is_none cache then
     critical_section (g <- take_GLOBAL_PINS;; modify (with_GLOBALS g))
   else ret tt);;
  cache <- gets GLOBALS;;
  match cache with
  | Some globals =>
      st <- interrupt_status (steering_pin globals);;
      (if st then
         count <- get_counter (steering_pwm globals);;
         set_counter (steering_pwm globals) 0;;
         clear_interrupt (steering_pin globals);;
         store ASTEERING count Release
       else ret tt);;
      st <- interrupt_status (throttle_pin globals);;
      (if st then
         count <- get_counter (throttle_pwm globals);;
         set_counter (throttle_pwm globals) 0;;
         clear_interrupt (throttle_pin globals);;
         store ATHROTTLE count Release
       else ret tt);;
      st <- interrupt_status (update_pin globals);;
      (if st then
         critical_section (
           pair <- gets LAST_UPDATE;;
           match timer pair with
           | Some t =>
               now <- timer_get_counter t;;
               modify (with_LAST_UPDATE {| timer := timer pair; last_update := now |})
           | None => ret tt
           end);;
         clear_interrupt (update_pin globals)
       else ret tt)
  | None => ret tt
  end.

(** [fn initialize_receiver]: after configuring the slices and pins (not
    modelled: PWM divider, enables), it stores the timer and the handles and
    unmasks IO_IRQ_BANK0 in the NVIC. *)
Definition receiver_globals : Globals :=
  {| steering_pin := gpio3; steering_pwm := pwm1; throttle_pin := gpio5;
     throttle_pwm := pwm2; update_pin := gpio4 |}.

Definition initialize_receiver : M unit :=
  critical_section (
    modify (with_LAST_UPDATE {| timer := Some TimerHandle; last_update := 0 |});;
    modify (with_GLOBAL_PINS (Some receiver_globals)));;
  modify with_nvic_unmasked.

(** The PWM slices wrap at TOP, whose reset value 0xFFFF is never changed. *)
Definition PWM_TOP : Z := 65535.
Definition pwm_tick (c : Z) : Z := if c =? PWM_TOP then 0 else c + 1.

(** Environment events. *)
Inductive Event :=
| EvTick (sl : SliceId)   (* a slice counts one divided clock while its input is high *)
| EvEdge (p : Input)      (* a falling edge latches EdgeLow on an input *)
| EvAdvance (d : Z)       (* the 1 MHz TIMER advances by d microseconds *)
| EvIrq                   (* IO_IRQ_BANK0 is entered *)
| EvInit.                 (* main calls initialize_receiver *)

Definition step (s : State) (e : Event) : option (State * list Action) :=
  match e with
  | EvTick sl =>
      Some (with_hw (fun h => set_counter_reg h sl (pwm_tick (counter h sl))) s, [])
  | EvEdge p => Some (with_hw (fun h => set_pending h p true) s, [])
  | EvAdvance d =>
      if (0 <=? d) && (timer_counter (hw s) + d <? 2 ^ 64)
      then Some (with_hw (fun h => set_timer_counter h (timer_counter h + d)) s, [])
      else None
  | EvIrq =>
      if nvic_unmasked s then let '(_, s', l) := IO_IRQ_BANK0 s in Some (s', l) else None
  | EvInit =>
      if peripherals_taken s then None
      else let '(_, s', l) := initialize_receiver s in Some (with_peripherals_taken s', l)
  end.

Fixpoint run (s : State) (tr : list Event) : option (State * list Action) :=
  match tr with
  | [] => Some (s, [])
  | e :: tr' =>
      match step s e with
      | Some (s1, l1) =>
          match run s1 tr' with
          | Some (s2, l2) => Some (s2, l1 ++ l2)
          | None => None
          end
      | None => None
      end
  end.

Definition init_hw : Hw :=
  {| pending_steering := false; pending_throttle := false; pending_update := false;
     counter_pwm1 := 0; counter_pwm2 := 0; timer_counter := 0 |}.

Definition init_state : State :=
  {| hw := init_hw; STEERING := 0; THROTTLE := 0; LAST_UPDATE := TimerPair_default;
     GLOBAL_PINS := None; GLOBALS := None; nvic_unmasked := false;
     peripherals_taken := false |}.

Definition run_state (s : State) (tr : list Event) : State :=
  match run s tr with Some (s', _) => s' | None => s end.
Definition run_log (s : State) (tr : list Event) : list Action :=
  match run s tr with Some (_, l) => l | None => [] end.

(** A state just before an update edge is handled: the receiver is
    initialised, the handles are cached, 700 us have elapsed and an update
    edge is latched. *)
Definition c1_state : State :=
  run_state init_state [EvInit; EvIrq; EvAdvance 700; EvEdge InUpdate].

Definition reachable (s : State) : Prop :=
  exists tr l, run init_state tr = Some (s, l).

(** Per-channel view of the two PWM inputs. *)
Inductive PwmChannel := ChSteering | ChThrottle.

Definition ch_input (ch : PwmChannel) : Input :=
  match ch with ChSteering => InSteering | ChThrottle => InThrottle end.
Definition ch_slice (ch : PwmChannel) : SliceId :=
  match ch with ChSteering => SlicePwm1 | ChThrottle => SlicePwm2 end.
Definition ch_atomic (ch : PwmChannel) : AtomicU16 :=
  match ch with ChSteering => ASTEERING | ChThrottle => ATHROTTLE end.
Definition ch_query (ch : PwmChannel) : M Z :=
  match ch with ChSteering => steering | ChThrottle => throttle end.

Definition slice_eqb (a b : SliceId) : bool :=
  match a, b with SlicePwm1, SlicePwm1 | SlicePwm2, SlicePwm2 => true | _, _ => false end.
Definition input_eqb (a b : Input) : bool :=
  match a, b with
  | InSteering, InSteering | InThrottle, InThrottle | InUpdate, InUpdate => true
  | _, _ => false
  end.
Definition atomic_eqb (a b : AtomicU16) : bool :=
  match a, b with ASTEERING, ASTEERING | ATHROTTLE, ATHROTTLE => true | _, _ => false end.

(** The actions of a handler run that concern one channel. *)
Definition ch_action (ch : PwmChannel) (a : Action) : bool :=
  match a with
  | AGetCounter sl | ASetCounter sl _ => slice_eqb sl (ch_slice ch)
  | AClearInterrupt p => input_eqb p (ch_input ch)
  | AStore a' _ _ => atomic_eqb a' (ch_atomic ch)
  end.

(** The value of the last store to an atomic slot in a trace. *)
Definition last_store (a : AtomicU16) (l : list Action) (default : Z) : Z :=
  fold_left (fun acc x => match x with
                          | AStore a' v _ => if atomic_eqb a' a then v else acc
                          | _ => acc
                          end) l default.

(** Number of counting ticks of a slice in an event trace. *)
Definition count_ticks (sl : SliceId) (tr : list Event) : nat :=
  length (filter (fun e => match e with EvTick sl' => slice_eqb sl' sl | _ => false end) tr).

(** Whether IO_IRQ_BANK0 finds the handles, in its cache or in [GLOBAL_PINS]. *)
Definition handles_present (s : State) : bool :=
  negb (is_none (GLOBALS s)) || negb (is_none (GLOBAL_PINS s)).

(** The invariant of reachable states. *)
Definition Inv (s : State) : Prop :=
  0 <= timer_counter (hw s) < 2 ^ 64 /\
  (peripherals_taken s = false ->
     nvic_unmasked s = false /\ GLOBALS s = None /\ GLOBAL_PINS s = None /\
     LAST_UPDATE s = TimerPair_default) /\
  (peripherals_taken s = true ->
     nvic_unmasked s = true /\ timer (LAST_UPDATE s) = Some TimerHandle /\
     ((GLOBALS s = None /\ GLOBAL_PINS s <> None) \/
      (GLOBALS s <> None /\ GLOBAL_PINS s = None))).

End Receiver.

(** ** src/lights.rs *)
Module Lights.

(** [x as u32] for a [u8] zero-extends. *)
Definition u8_as_u32 (b : Byte.byte) : Z := Z.of_N (Byte.to_N b).

(** [x << n] on [u32]: bits shifted past bit 31 are lost. *)
Definition u32_shl (x n : Z) : Z := Z.shiftl x n mod 2 ^ 32.

(** [a * b] on [u32]: with overflow checks (debug profile) an overflow
    panics, without them (release profile) it wraps. *)
Definition u32_mul (overflow_checks : bool) (a b : Z) : option Z :=
  if a * b <? 2 ^ 32 then Some (a * b)
  else if overflow_checks then None else Some ((a * b) mod 2 ^ 32).

(** The public defines of the PIO program. *)
Definition t1 : Z := 8.
Definition t2 : Z := 6.
Definition t3 : Z := 8.

(** The state machine configuration [initialize_lights] builds. *)
Record SmConfig := mkSmConfig {
  side_set_pin_base : Z;
  out_shift_right : bool;
  autopull : bool;
  pull_threshold : Z;
  clkdiv_int : Z;   (* [int_part as u16] *)
  clkdiv_frac : Z;  (* [fract_part as u8] *)
  only_tx : bool
}.

Definition initialize_lights (overflow_checks : bool) (sys_hz pin : Z) : option SmConfig :=
  let frequency := 871000 in
  let cycles_per_bit := (t1 + t2 + t3) mod 2 ^ 32 in
  match u32_mul overflow_checks frequency cycles_per_bit with
  | None => None
  | Some frequency_per_bit =>
      let int_part := sys_hz / frequency_per_bit in
      let remainder := sys_hz mod frequency_per_bit in
      match u32_mul overflow_checks remainder 256 with
      | None => None
      | Some r256 =>
          let fract_part := r256 / frequency_per_bit in
          Some {| side_set_pin_base := pin; out_shift_right := true; autopull := false;
                  pull_threshold := 24; clkdiv_int := int_part mod 2 ^ 16;
                  clkdiv_frac := fract_part mod 2 ^ 8; only_tx := true |}
      end
  end.

(** [struct FrontLeds] and [struct RearLeds]; record fields share one name
    space in Rocq, so the rear yellow channel is [rear_yellow]. *)
Record FrontLeds := mkFrontLeds {
  yellow : Byte.byte;
  low_beam : Byte.byte;
  high_beam : Byte.byte
}.

Record RearLeds := mkRearLeds {
  rear_yellow : Byte.byte;
  white : Byte.byte;
  red : Byte.byte
}.

(** [impl From<FrontLeds> for u32] *)
Definition u32_from_FrontLeds (value : FrontLeds) : Z :=
  let ret := 0xFF000000 in
  let ret := Z.lor ret (u32_shl (u8_as_u32 (high_beam value)) 16) in
  let ret := Z.lor ret (u32_shl (u8_as_u32 (low_beam value)) 8) in
  Z.lor ret (u8_as_u32 (yellow value)).

(** [impl From<RearLeds> for u32] *)
Definition u32_from_RearLeds (value : RearLeds) : Z :=
  let ret := 0xFF000000 in
  let ret := Z.lor ret (u32_shl (u8_as_u32 (red value)) 16) in
  let ret := Z.lor ret (u32_shl (u8_as_u32 (white value)) 8) in
  Z.lor ret (u8_as_u32 (rear_yellow value)).

(** [struct Leds] *)
Record Leds := mkLeds {
  front_right : FrontLeds;
  front_left : FrontLeds;
  rear_right : RearLeds;
  rear_left : RearLeds
}.

(** The words [Leds::write] hands to [Tx::write], in program order, inside
    its [critical_section::with] closure. *)
Definition Leds_write_body (self : Leds) : list Z :=
  [u32_from_FrontLeds (front_left self); u32_from_FrontLeds (front_right self);
   u32_from_RearLeds (rear_right self); u32_from_RearLeds (rear_left self);
   0xFF000000; 0; 42].

(** The TX FIFO of state machine 0: [Buffers::OnlyTx] joins the RX FIFO
    into it, giving 8 entries. [Tx::write] does not block: on a full FIFO it
    returns false and the word is not enqueued; [Leds::write] ignores the
    result. *)
Definition TX_FIFO_DEPTH : nat := 8.

Definition Tx_write (fifo : list Z) (value : Z) : bool * list Z :=
  if Nat.ltb (length fifo) TX_FIFO_DEPTH then (true, fifo ++ [value]) else (false, fifo).

(** Two frame writers (two execution contexts, or the two cores) share the
    [Tx]. [critical_section::with] (the rp2040-hal implementation: a
    hardware spinlock and masked interrupts) admits one of them at a time;
    the PIO state machine keeps pulling words from the FIFO meanwhile. *)
Inductive Writer := WriterA | WriterB.

Definition writer_eqb (a b : Writer) : bool :=
  match a, b with WriterA, WriterA | WriterB, WriterB => true | _, _ => false end.

Record Sys := mkSys {
  fifo : list Z;
  log : list (Writer * Z * bool);        (* every [Tx::write] call and its result *)
  inside : option (Writer * list Z);     (* the writer in its critical section, words left *)
  prog_a : list Leds;                    (* frames writer A has still to write *)
  prog_b : list Leds
}.

Definition prog (s : Sys) (w : Writer) : list Leds :=
  match w with WriterA => prog_a s | WriterB => prog_b s end.

Definition set_prog (s : Sys) (w : Writer) (p : list Leds) : Sys :=
  let '(mkSys f l i pa pb) := s in
  match w with WriterA => mkSys f l i p pb | WriterB => mkSys f l i pa p end.

(** Scheduling decisions. *)
Inductive Sched :=
| SEnter (w : Writer)  (* [w] calls [Leds::write] on its next frame and enters the critical section *)
| SWrite               (* the writer inside makes its next [Tx::write] call *)
| SExit                (* the writer inside leaves the critical section *)
| SPull.               (* the state machine pulls the head of the FIFO *)

Definition sys_step (s : Sys) (e : Sched) : option Sys :=
  let '(mkSys f l i pa pb) := s in
  match e, i with
  | SEnter w, None =>
      match prog s w with
      | v :: rest => Some (set_prog (mkSys f l (Some (w, Leds_write_body v)) pa pb) w rest)
      | [] => None
      end
  | SWrite, Some (w, x :: xs) =>
      let '(ok, f') := Tx_write f x in Some (mkSys f' (l ++ [(w, x, ok)]) (Some (w, xs)) pa pb)
  | SExit, Some (w, []) => Some (mkSys f l None pa pb)
  | SPull, _ =>
      match f with
      | _ :: f' => Some (mkSys f' l i pa pb)
      | [] => None
      end
  | _, _ => None
  end.

Fixpoint exec (s : Sys) (sched : list Sched) : option Sys :=
  match sched with
  | [] => Some s
  | e :: sched' => match sys_step s e with Some s1 => exec s1 sched' | None => None end
  end.

Definition start (la lb : list Leds) : Sys :=
  {| fifo := []; log := []; inside := None; prog_a := la; prog_b := lb |}.

(** The words that entered the FIFO, in order. *)
Definition enqueued (s : Sys) : list Z :=
  map (fun '(_, x, _) => x) (filter (fun '(_, _, ok) => ok) (log s)).

(** The [Tx::write] calls, with their writer. *)
Definition calls (s : Sys) : list (Writer * Z) :=
  map (fun '(w, x, _) => (w, x)) (log s).

Definition tagged_frame (e : Writer * Leds) : list (Writer * Z) :=
  map (fun x => (fst e, x)) (Leds_write_body (snd e)).

Definition frames_of (w : Writer) (entries : list (Writer * Leds)) : list Leds :=
  map snd (filter (fun e => writer_eqb (fst e) w) entries).

(** The [Tx::write] calls still to come in the open critical section. *)
Definition pending_calls (s : Sys) : list (Writer * Z) :=
  match inside s with Some (w, rest) => map (fun x => (w, x)) rest | None => [] end.

(** The calls made so far, followed by those the open critical section
    will make, are whole frames, taken from the writers' programs in order. *)
Definition Frames (la lb : list Leds) (s : Sys) : Prop :=
  exists entries,
    calls s ++ pending_calls s = concat (map tagged_frame entries) /\
    frames_of WriterA entries ++ prog_a s = la /\
    frames_of WriterB entries ++ prog_b s = lb.

(** The frame [main] writes first in its loop. *)
Definition main_leds : Leds :=
  {| front_right := mkFrontLeds Byte.x00 Byte.x00 Byte.x00;
     front_left := mkFrontLeds Byte.x2a Byte.x00 Byte.x00;
     rear_right := mkRearLeds Byte.x00 Byte.x00 Byte.x00;
     rear_left := mkRearLeds Byte.x2a Byte.x00 Byte.x00 |}.

Definition exec_state (s : Sys) (sched : list Sched) : Sys :=
  match exec s sched with Some s' => s' | None => s end.

(** The PIO program assembled by [pio_asm!] in [initialize_lights], one
    entry per instruction at its address relative to the load offset. Every
    instruction carries its side-set bit (the data pin) and its delay. *)
Inductive JmpCond :=
| JAlways        (* jmp label *)
| JXZero         (* jmp !x label *)
| JYZero         (* jmp !y label *)
| JXDec          (* jmp x-- label: taken if X is non-zero, X decremented *)
| JOsrNotEmpty.  (* jmp !osre label: taken while fewer than the pull threshold bits are out *)

Inductive PioOp :=
| PPull                    (* pull: blocking, autopull is off *)
| PMovXOsr                 (* mov x osr *)
| PNop                     (* nop *)
| POutY (bits : nat)       (* out y, bits *)
| PJmp (c : JmpCond) (target : nat).

Record PioInstr := mkPioInstr { op : PioOp; side : bool; delay : nat }.

Definition new_data : nat := 0.
Definition bitloop : nat := 5.
Definition check_bit : nat := 6.
Definition do_zero : nat := 8.
Definition do_stop : nat := 10.
Definition keep_looping : nat := 12.

Definition lights_program : list PioInstr :=
  [ (* new_data: *)
    mkPioInstr PPull false 0;
    mkPioInstr PMovXOsr false 0;
    mkPioInstr (PJmp JXZero do_stop) false 0;
    mkPioInstr (POutY 1) false 2;
    mkPioInstr (PJmp JAlways check_bit) false 0;
    (* bitloop: *)
    mkPioInstr (POutY 1) false (Z.to_nat (t3 - 1));
    (* check_bit: *)
    mkPioInstr (PJmp JYZero do_zero) true (Z.to_nat (t1 - 1));
    (* do_one: *)
    mkPioInstr (PJmp JOsrNotEmpty bitloop) true (Z.to_nat (t2 - 1));
    (* .wrap, then do_zero: *)
    mkPioInstr (PJmp JOsrNotEmpty bitloop) false (Z.to_nat (t2 - 1));
    (* .wrap_target *)
    mkPioInstr (PJmp JAlways new_data) false 0;
    (* do_stop: *)
    mkPioInstr PPull false 0;
    mkPioInstr PMovXOsr false 0;
    (* keep_looping: *)
    mkPioInstr (PJmp JXDec keep_looping) false 7;
    mkPioInstr PNop true 7;
    mkPioInstr (PJmp JAlways new_data) false 0 ].

(** [.wrap] follows do_one and [.wrap_target] precedes the last [jmp new_data]
    of the data path. *)
Definition wrap_top : nat := 7.
Definition wrap_bottom : nat := 9.

Definition pio_next_pc (pc : nat) : nat := if Nat.eqb pc wrap_top then wrap_bottom else S pc.

(** State machine 0: program counter, scratch registers, output shift
    register and its shift count, and the TX FIFO it pulls from. *)
Record PioSm := mkPioSm {
  pc : nat;
  reg_x : Z;
  reg_y : Z;
  osr : Z;
  osr_count : nat;
  txfifo : list Z
}.

(** One instruction, with the level of the data pin in each cycle it takes:
    1 + delay cycles, or one cycle of stall for a [pull] on an empty FIFO (the
    side-set is asserted, the delay waits for the instruction to complete).
    The OSR shifts right ([ShiftDirection::Right]) and [thresh] is the pull
    threshold. *)
Definition pio_step (thresh : nat) (s : PioSm) : option (PioSm * list bool) :=
  let '(mkPioSm pc x y o cnt fifo) := s in
  match nth_error lights_program pc with
  | None => None
  | Some (mkPioInstr i sd d) =>
      let cycles := repeat sd (S d) in
      match i with
      | PPull =>
          match fifo with
          | w :: rest => Some (mkPioSm (pio_next_pc pc) x y w 0 rest, cycles)
          | [] => Some (mkPioSm pc x y o cnt fifo, [sd])
          end
      | PMovXOsr => Some (mkPioSm (pio_next_pc pc) o y o cnt fifo, cycles)
      | PNop => Some (mkPioSm (pio_next_pc pc) x y o cnt fifo, cycles)
      | POutY n =>
          Some (mkPioSm (pio_next_pc pc) x (o mod 2 ^ Z.of_nat n) (Z.shiftr o (Z.of_nat n))
                  (Nat.min 32 (cnt + n)) fifo, cycles)
      | PJmp c t =>
          let '(taken, x') :=
            match c with
            | JAlways => (true, x)
            | JXZero => (x =? 0, x)
            | JYZero => (y =? 0, x)
            | JXDec => (negb (x =? 0), (x - 1) mod 2 ^ 32)
            | JOsrNotEmpty => (Nat.ltb cnt thresh, x)
            end in
          Some (mkPioSm (if taken then t else pio_next_pc pc) x' y o cnt fifo, cycles)
      end
  end.

(** [n] instructions in a row and the pin level in every cycle. *)
Fixpoint pio_run (thresh : nat) (n : nat) (s : PioSm) : option (PioSm * list bool) :=
  match n with
  | O => Some (s, [])
  | S n' =>
      match pio_step thresh s with
      | Some (s1, t1) =>
          match pio_run thresh n' s1 with
          | Some (s2, t2) => Some (s2, t1 ++ t2)
          | None => None
          end
      | None => None
      end
  end.

(** The waveform of a data word: 7 low cycles, then for each of bits 0..23
    (least significant first) t1 cycles high, t2 cycles at the bit's value
    and t3 cycles low (a single low cycle after the last bit). *)
Definition bit_wave (w : Z) (i : nat) : list bool :=
  repeat true (Z.to_nat t1) ++ repeat (Z.testbit w (Z.of_nat i)) (Z.to_nat t2) ++
  repeat false (if Nat.ltb i 23 then Z.to_nat t3 else 1).

Definition word_wave (w : Z) : list bool :=
  repeat false 7 ++ concat (map (bit_wave w) (seq 0 24)).

(** The waveform of a zero word followed by a count n: 5 + 8 (n + 1) cycles
    low, 8 cycles high, one cycle low. *)
Definition gap_wave (n : Z) : list bool :=
  repeat false (5 + 8 * S (Z.to_nat n)) ++ repeat true 8 ++ [false].

(** What the data pin carries for the words of one [Leds::write]. *)
Definition frame_wave (v : Leds) : list bool :=
  concat (map word_wave (firstn 5 (Leds_write_body v))) ++ gap_wave 42.

End Lights.

(** * Proofs *)

Module ReceiverFacts.
Import Receiver.

(** ** Lemmas *)

Ltac irq_cases s :=
  destruct s as [[[] [] [] c1 c2 tc] st th [[[]|] lu] gp gl [] []];
  destruct gp as [[[] [] [] [] []]|], gl as [[[] [] [] [] []]|]; cbn.

Lemma irq_frame (s : State) :
  let '(_, s', _) := IO_IRQ_BANK0 s in
  peripherals_taken s' = peripherals_taken s /\ nvic_unmasked s' = nvic_unmasked s /\
  timer (LAST_UPDATE s') = timer (LAST_UPDATE s) /\
  timer_counter (hw s') = timer_counter (hw s) /\
  GLOBALS s' = (if is_none (GLOBALS s) then GLOBAL_PINS s else GLOBALS s) /\
  GLOBAL_PINS s' = (if is_none (GLOBALS s) then None else GLOBAL_PINS s).
Proof. irq_cases s; repeat split. Qed.

Lemma irq_last_update (s : State) :
  let '(_, s', l) := IO_IRQ_BANK0 s in
  (pending_update (hw s) = false \/ handles_present s = false ->
     LAST_UPDATE s' = LAST_UPDATE s) /\
  (pending_update (hw s) = true -> handles_present s = true ->
     LAST_UPDATE s' = match timer (LAST_UPDATE s) with
                      | Some t => {| timer := Some t; last_update := timer_counter (hw s) |}
                      | None => LAST_UPDATE s
                      end /\ pending_update (hw s') = false) /\
  (~ In (AClearInterrupt InUpdate) l -> LAST_UPDATE s' = LAST_UPDATE s).
Proof.
  irq_cases s; repeat split; intros; try reflexivity;
    repeat match goal with H : _ \/ _ |- _ => destruct H end;
    try discriminate;
    match goal with H : ~ _ |- _ =>
      exfalso; apply H; simpl; repeat (try (left; reflexivity); right) end.
Qed.

Lemma irq_channel (ch : PwmChannel) (s : State) :
  let '(_, s', l) := IO_IRQ_BANK0 s in
  (pending (hw s) (ch_input ch) = true -> handles_present s = true ->
     filter (ch_action ch) l =
       [AGetCounter (ch_slice ch); ASetCounter (ch_slice ch) 0;
        AClearInterrupt (ch_input ch);
        AStore (ch_atomic ch) (counter (hw s) (ch_slice ch)) Release] /\
     atomic s' (ch_atomic ch) = counter (hw s) (ch_slice ch) /\
     counter (hw s') (ch_slice ch) = 0 /\ pending (hw s') (ch_input ch) = false) /\
  (pending (hw s) (ch_input ch) = false ->
     filter (ch_action ch) l = [] /\
     atomic s' (ch_atomic ch) = atomic s (ch_atomic ch) /\
     counter (hw s') (ch_slice ch) = counter (hw s) (ch_slice ch) /\
     pending (hw s') (ch_input ch) = false).
Proof. destruct ch; irq_cases s; repeat split; intros; try reflexivity; discriminate. Qed.

Lemma irq_pending_other (s : State) :
  let '(_, s', _) := IO_IRQ_BANK0 s in
  forall p, pending (hw s) p = false -> pending (hw s') p = false.
Proof. irq_cases s; intros []; cbn; auto. Qed.

Lemma irq_eq (s : State) :
  exists s' l, IO_IRQ_BANK0 s = (tt, s', l).
Proof. destruct (IO_IRQ_BANK0 s) as [[[] s'] l]; eauto. Qed.

Lemma step_Inv (s s' : State) (e : Event) (l : list Action) :
  Inv s -> step s e = Some (s', l) -> Inv s'.
Proof.
  intros (Hc & Hf & Ht) Hs; destruct e; cbn [step] in Hs.
  - injection Hs as <- <-; destruct s as [[] ? ? ? ? ? ? ?], sl;
      exact (conj Hc (conj Hf Ht)).
  - injection Hs as <- <-; destruct s as [[] ? ? ? ? ? ? ?], p;
      exact (conj Hc (conj Hf Ht)).
  - destruct ((0 <=? d) && _) eqn:Hd; [|discriminate].
    apply andb_true_iff in Hd as [Hd1 Hd2]; apply Z.leb_le in Hd1; apply Z.ltb_lt in Hd2.
    injection Hs as <- <-; destruct s as [[] ? ? ? ? ? ? ?].
    split; [cbn in *; lia | exact (conj Hf Ht)].
  - destruct (nvic_unmasked s) eqn:Hn; [|discriminate].
    destruct (irq_eq s) as (s1 & l1 & E); rewrite E in Hs; injection Hs as <- <-.
    pose proof (irq_frame s) as F; rewrite E in F; destruct F as (F1 & F2 & F3 & F4 & F5 & F6).
    destruct (peripherals_taken s) eqn:Hp.
    + destruct (Ht eq_refl) as (T1 & T2 & T3).
      split; [rewrite F4; exact Hc|split; [intros; congruence|intros _]].
      split; [congruence|split; [congruence|]].
      rewrite F5, F6.
      destruct T3 as [[-> T3] | [T3 ->]]; cbn.
      * right; split; congruence.
      * destruct (GLOBALS s); [|congruence]; cbn; right; split; congruence.
    + destruct (Hf eq_refl) as (T1 & _); congruence.
  - destruct (peripherals_taken s) eqn:Hp; [discriminate|].
    injection Hs as <- <-; destruct (Hf eq_refl) as (T1 & T2 & T3 & T4).
    destruct s as [h st th lu gp gl nv pk]; unfold Inv; cbn in *.
    split; [exact Hc|split; [discriminate|intros _]].
    split; [reflexivity|split; [reflexivity|left; split; [exact T2|discriminate]]].
Qed.

Lemma Inv_init : Inv init_state.
Proof. repeat split; cbn; try lia; discriminate. Qed.

(** Invariants carried along a trace. *)
Lemma run_preserve (P : State -> Prop) (Q : Event -> Prop) :
  (forall s e s' l, P s -> Q e -> step s e = Some (s', l) -> P s') ->
  forall tr s s' l, Forall Q tr -> P s -> run s tr = Some (s', l) -> P s'.
Proof.
  intros Hstep tr; induction tr as [|e tr IH]; intros s s' l HQ HP Hr; cbn in Hr.
  - congruence.
  - inversion HQ as [|? ? He Htr]; subst.
    destruct (step s e) as [[s1 l1]|] eqn:E1; [|discriminate].
    destruct (run s1 tr) as [[s2 l2]|] eqn:E2; [|discriminate].
    injection Hr as <- <-; eapply IH; [exact Htr | eapply Hstep; eauto | exact E2].
Qed.

Lemma reachable_Inv (s : State) : reachable s -> Inv s.
Proof.
  intros (tr & l & Hr).
  refine (run_preserve Inv (fun _ => True) _ tr init_state s l _ Inv_init Hr).
  - intros; eapply step_Inv; eauto.
  - apply Forall_forall; auto.
Qed.

Lemma run_app (s : State) (tr1 tr2 : list Event) :
  run s (tr1 ++ tr2) =
  match run s tr1 with
  | Some (s1, l1) =>
      match run s1 tr2 with Some (s2, l2) => Some (s2, l1 ++ l2) | None => None end
  | None => None
  end.
Proof.
  revert s; induction tr1 as [|e tr1 IH]; intros s; cbn.
  - destruct (run s tr2) as [[s2 l2]|]; reflexivity.
  - destruct (step s e) as [[s1 l1]|]; [|reflexivity].
    rewrite IH; destruct (run s1 tr1) as [[s3 l3]|]; [|reflexivity].
    destruct (run s3 tr2) as [[s4 l4]|]; [|reflexivity].
    now rewrite app_assoc.
Qed.

Lemma run_reachable (s s' : State) (tr : list Event) (l : list Action) :
  reachable s -> run s tr = Some (s', l) -> reachable s'.
Proof.
  intros (tr0 & l0 & H0) Hr; exists (tr0 ++ tr), (l0 ++ l).
  rewrite run_app, H0, Hr; reflexivity.
Qed.

Lemma query_watchdog (s : State) :
  query has_watchdog_expired s =
  match timer (LAST_UPDATE s) with
  | Some _ => option_map exceeds_100ms (instant_sub (timer_counter (hw s)) (last_update (LAST_UPDATE s)))
  | None => Some true
  end.
Proof.
  destruct s as [h st th [[[]|] lu] gp gl nv pk]; [|reflexivity].
  unfold query, has_watchdog_expired, critical_section, bind, gets, ret, timer_get_counter.
  cbn -[instant_sub]; destruct (instant_sub (timer_counter h) lu); reflexivity.
Qed.

(** For u64 instants with [b <= a] the subtraction panics exactly when the
    difference is 2^63 or more. *)
Lemma instant_sub_plain (a b : Z) :
  0 <= b <= a -> a < 2 ^ 64 ->
  instant_sub a b = if a - b <? 2 ^ 63 then Some (a - b) else None.
Proof.
  intros Hb Ha; unfold instant_sub, instant_ge.
  rewrite Z.mod_small by lia; change ((2 ^ 64 - 1) / 2) with (2 ^ 63 - 1).
  destruct (Z.eqb_spec a b), (Z.leb_spec (a - b) (2 ^ 63 - 1)), (Z.ltb_spec (a - b) (2 ^ 63));
    cbn; try reflexivity; lia.
Qed.

Lemma exceeds_100ms_iff (d : Z) : exceeds_100ms d = (100000 <? d).
Proof.
  unfold exceeds_100ms, duration_gt.
  destruct (Z.ltb_spec (100 * 1 * 1000000) (d * 1 * 1000)), (Z.ltb_spec 100000 d); lia.
Qed.

Lemma query_ch (ch : PwmChannel) (s : State) :
  query (ch_query ch) s = atomic s (ch_atomic ch).
Proof. destruct ch; reflexivity. Qed.

Lemma run_preserve_without (P : State -> Prop) (a : Action) :
  (forall s e s' l, P s -> step s e = Some (s', l) -> ~ In a l -> P s') ->
  forall tr s s' l, P s -> run s tr = Some (s', l) -> ~ In a l -> P s'.
Proof.
  intros Hstep tr; induction tr as [|e tr IH]; intros s s' l HP Hr Ha; cbn in Hr.
  - congruence.
  - destruct (step s e) as [[s1 l1]|] eqn:E1; [|discriminate].
    destruct (run s1 tr) as [[s2 l2]|] eqn:E2; [|discriminate].
    injection Hr as <- <-.
    apply (IH s1 s2 l2); [eapply Hstep; eauto | exact E2 |];
      intros Hin; apply Ha, in_or_app; auto.
Qed.

Lemma iter_pwm_tick (n : nat) :
  Nat.iter n pwm_tick 0 = Z.of_nat n mod 2 ^ 16.
Proof.
  induction n as [|n IH]; [reflexivity|].
  change (Nat.iter (S n) pwm_tick 0) with (pwm_tick (Nat.iter n pwm_tick 0)); rewrite IH, Nat2Z.inj_succ, <- Z.add_1_r, Zplus_mod.
  unfold pwm_tick, PWM_TOP.
  pose proof (Z.mod_pos_bound (Z.of_nat n) (2 ^ 16) ltac:(lia)).
  destruct (Z.eqb_spec (Z.of_nat n mod 2 ^ 16) 65535) as [E|E].
  - rewrite E; reflexivity.
  - rewrite (Z.mod_small 1) by lia; rewrite (Z.mod_small (Z.of_nat n mod 2 ^ 16 + 1)); lia.
Qed.

(** A channel whose input sees no falling edge, and has none latched, keeps
    its published width, and its counter only counts ticks. *)
Lemma run_channel_quiet (ch : PwmChannel) :
  forall tr s s' l, run s tr = Some (s', l) -> ~ In (EvEdge (ch_input ch)) tr ->
  pending (hw s) (ch_input ch) = false ->
  atomic s' (ch_atomic ch) = atomic s (ch_atomic ch) /\
  pending (hw s') (ch_input ch) = false /\
  counter (hw s') (ch_slice ch) =
    Nat.iter (count_ticks (ch_slice ch) tr) pwm_tick (counter (hw s) (ch_slice ch)) /\
  (GLOBALS s <> None -> GLOBALS s' <> None) /\
  (nvic_unmasked s = true -> nvic_unmasked s' = true).
Proof.
  intros tr; induction tr as [|e tr IH]; intros s s' l Hr Hn Hp; cbn in Hr.
  - injection Hr as <- <-; repeat split; auto.
  - destruct (step s e) as [[s1 l1]|] eqn:E1; [|discriminate].
    destruct (run s1 tr) as [[s2 l2]|] eqn:E2; [|discriminate].
    injection Hr as <- <-.
    assert (Hn' : ~ In (EvEdge (ch_input ch)) tr) by (intros H; apply Hn; right; exact H).
    assert (Hs1 : atomic s1 (ch_atomic ch) = atomic s (ch_atomic ch) /\
                  pending (hw s1) (ch_input ch) = false /\
                  counter (hw s1) (ch_slice ch) =
                    (if match e with EvTick sl' => slice_eqb sl' (ch_slice ch) | _ => false end
                     then pwm_tick (counter (hw s) (ch_slice ch))
                     else counter (hw s) (ch_slice ch)) /\
                  (GLOBALS s <> None -> GLOBALS s1 <> None) /\
                  (nvic_unmasked s = true -> nvic_unmasked s1 = true)).
    { destruct e; cbn [step] in E1.
      - injection E1 as <- <-; destruct s as [[] ? ? ? ? ? ? ?], ch, sl; cbn; auto.
      - injection E1 as <- <-.
        assert (p <> ch_input ch) by (intros ->; apply Hn; left; reflexivity).
        destruct s as [[] ? ? ? ? ? ? ?], ch, p; cbn in *; auto; congruence.
      - destruct ((0 <=? d) && _); [|discriminate].
        injection E1 as <- <-; destruct s as [[] ? ? ? ? ? ? ?], ch; cbn; auto.
      - destruct (nvic_unmasked s) eqn:Hnv; [|discriminate].
        destruct (irq_eq s) as (s3 & l3 & E); rewrite E in E1; injection E1 as <- <-.
        pose proof (irq_channel ch s) as C; rewrite E in C; destruct C as [_ C].
        destruct (C Hp) as (_ & C2 & C3 & C4).
        pose proof (irq_frame s) as F; rewrite E in F; destruct F as (_ & F2 & _ & _ & F5 & _).
        split; [exact C2|split; [exact C4|split; [exact C3|split]]].
        + intros H; rewrite F5; destruct (GLOBALS s); cbn; [discriminate | congruence].
        + intros H; congruence.
      - destruct (peripherals_taken s); [discriminate|].
        injection E1 as <- <-; destruct s as [[] ? ? ? ? ? ? ?], ch; cbn; auto. }
    destruct Hs1 as (A1 & A2 & A3 & A4 & A5).
    destruct (IH s1 s2 l2 E2 Hn' A2) as (B1 & B2 & B3 & B4 & B5).
    repeat split; auto; [congruence|].
    rewrite B3, A3; unfold count_ticks; cbn [filter].
    destruct e; cbn [length]; try reflexivity.
    destruct (slice_eqb sl (ch_slice ch)); cbn [length]; [rewrite Nat.iter_succ_r|]; reflexivity.
Qed.

Lemma irq_absent (s : State) :
  handles_present s = false -> IO_IRQ_BANK0 s = (tt, s, []).
Proof.
  destruct s as [h st th lu [g|] [g'|] nv pk]; cbn; intros H; try discriminate; reflexivity.
Qed.

Lemma last_store_filter (ch : PwmChannel) (l : list Action) (d : Z) :
  last_store (ch_atomic ch) l d = last_store (ch_atomic ch) (filter (ch_action ch) l) d.
Proof.
  unfold last_store; revert d; induction l as [|x l IH]; intros d; [reflexivity|].
  cbn [fold_left filter].
  destruct (ch_action ch x) eqn:Hx; cbn [fold_left]; rewrite IH; [reflexivity|].
  f_equal; destruct x as [| | |a' v o]; try reflexivity.
  cbn in Hx; rewrite Hx; reflexivity.
Qed.

Lemma step_last_store (a : AtomicU16) (s s' : State) (e : Event) (l : list Action) :
  step s e = Some (s', l) -> atomic s' a = last_store a l (atomic s a).
Proof.
  intros Hs; destruct e; cbn [step] in Hs.
  - injection Hs as <- <-; destruct s as [[] ? ? ? ? ? ? ?], a, sl; reflexivity.
  - injection Hs as <- <-; destruct s as [[] ? ? ? ? ? ? ?], a, p; reflexivity.
  - destruct ((0 <=? d) && _); [|discriminate]; injection Hs as <- <-.
    destruct s as [[] ? ? ? ? ? ? ?], a; reflexivity.
  - destruct (nvic_unmasked s); [|discriminate].
    destruct (irq_eq s) as (s3 & l3 & E); rewrite E in Hs; injection Hs as <- <-.
    assert (Ha : exists ch, a = ch_atomic ch)
      by (destruct a; [exists ChSteering | exists ChThrottle]; reflexivity).
    destruct Ha as [ch ->]; rewrite last_store_filter.
    destruct (handles_present s) eqn:Hh.
    + pose proof (irq_channel ch s) as C; rewrite E in C.
      destruct (pending (hw s) (ch_input ch)) eqn:Hp.
      * destruct (proj1 C eq_refl Hh) as (C1 & C2 & _); rewrite C1, C2; destruct ch; reflexivity.
      * destruct (proj2 C eq_refl) as (C1 & C2 & _); rewrite C1, C2; reflexivity.
    + rewrite (irq_absent s Hh) in E; injection E as <- <-; reflexivity.
  - destruct (peripherals_taken s); [discriminate|].
    injection Hs as <- <-; destruct s as [[] ? ? ? ? ? ? ?], a; reflexivity.
Qed.

Lemma run_last_store (a : AtomicU16) :
  forall tr s s' l, run s tr = Some (s', l) -> atomic s' a = last_store a l (atomic s a).
Proof.
  intros tr; induction tr as [|e tr IH]; intros s s' l Hr; cbn in Hr.
  - injection Hr as <- <-; reflexivity.
  - destruct (step s e) as [[s1 l1]|] eqn:E1; [|discriminate].
    destruct (run s1 tr) as [[s2 l2]|] eqn:E2; [|discriminate].
    injection Hr as <- <-.
    unfold last_store; rewrite fold_left_app; fold (last_store a l1 (atomic s a)).
    rewrite <- (step_last_store a s s1 e l1 E1); apply IH; exact E2.
Qed.

Lemma last_store_none (a : AtomicU16) (l : list Action) (d : Z) :
  (forall v o, ~ In (AStore a v o) l) -> last_store a l d = d.
Proof.
  unfold last_store; revert d; induction l as [|x l IH]; intros d H; [reflexivity|].
  cbn; rewrite IH; [| intros v o Hin; apply (H v o); right; exact Hin].
  destruct x as [| | |a' v o]; try reflexivity.
  destruct a, a'; cbn; try reflexivity; exfalso; apply (H v o); left; reflexivity.
Qed.

Lemma run_ticks (sl : SliceId) (n : nat) :
  forall s, run s (repeat (EvTick sl) n) =
    Some (with_hw (fun h => set_counter_reg h sl (Nat.iter n pwm_tick (counter h sl))) s, []).
Proof.
  induction n as [|n IH]; intros s.
  - destruct s as [[] ? ? ? ? ? ? ?], sl; reflexivity.
  - cbn [repeat run step]; rewrite IH; cbn [app].
    destruct s as [[] ? ? ? ? ? ? ?], sl; cbn -[Nat.iter pwm_tick];
      rewrite <- Nat.iter_succ_r; reflexivity.
Qed.

Lemma count_ticks_repeat (sl : SliceId) (n : nat) :
  count_ticks sl (repeat (EvTick sl) n) = n.
Proof.
  unfold count_ticks; induction n as [|n IH]; [reflexivity|].
  cbn [repeat filter]; destruct sl; cbn [slice_eqb length]; rewrite IH; reflexivity.
Qed.

(** ** Claims about receiver.rs *)

(** C1: after IO_IRQ_BANK0 handles a falling edge of the update input at
    timer instant T, and with no further update edges, has_watchdog_expired
    is false at every instant up to T + 100 ms and true at every later one
    before the 1 MHz TIMER, counting from 0, reaches 2^63 us (about 292000
    years; from T + 2^63 on fugit's subtraction would panic). *)
Theorem watchdog_after_update_edge (s s1 s2 : State) (l1 l2 : list Action) (tr : list Event) :
  reachable s -> peripherals_taken s = true -> pending_update (hw s) = true ->
  step s EvIrq = Some (s1, l1) ->
  run s1 tr = Some (s2, l2) -> ~ In (EvEdge InUpdate) tr ->
  (timer_counter (hw s2) <= timer_counter (hw s) + 100000 ->
     query has_watchdog_expired s2 = Some false) /\
  (timer_counter (hw s) + 100000 < timer_counter (hw s2) < 2 ^ 63 ->
     query has_watchdog_expired s2 = Some true).
Proof.
  intros Hre Htk Hpu Hs1 Hr Hn.
  destruct (reachable_Inv s Hre) as (Hc & _ & Ht); destruct (Ht Htk) as (Hnv & Htm & Hg).
  set (T := timer_counter (hw s)).
  cbn [step] in Hs1; rewrite Hnv in Hs1.
  destruct (irq_eq s) as (s3 & l3 & E); rewrite E in Hs1; injection Hs1 as <- <-.
  pose proof (irq_last_update s) as U; rewrite E in U; destruct U as (_ & U & _).
  assert (Hhp : handles_present s = true).
  { unfold handles_present; destruct Hg as [[-> G] | [G _]];
      [destruct (GLOBAL_PINS s) | destruct (GLOBALS s)]; cbn; congruence. }
  destruct (U Hpu Hhp) as (U1 & U2); rewrite Htm in U1.
  pose proof (irq_frame s) as F; rewrite E in F; destruct F as (F1 & _ & _ & F4 & _).
  pose (P := fun x : State =>
    LAST_UPDATE x = {| timer := Some TimerHandle; last_update := T |} /\
    pending_update (hw x) = false /\ peripherals_taken x = true /\
    T <= timer_counter (hw x) < 2 ^ 64).
  assert (HP : P s2).
  { refine (run_preserve P (fun e => e <> EvEdge InUpdate) _ tr s3 s2 l2 _ _ Hr).
    - intros x e x' l (P1 & P2 & P3 & P4) He Hx; destruct e; cbn [step] in Hx.
      + injection Hx as <- <-; destruct x as [[] ? ? ? ? ? ? ?], sl;
          unfold P in *; cbn in *; repeat split; auto; lia.
      + injection Hx as <- <-; destruct x as [[] ? ? ? ? ? ? ?], p; [| |congruence];
          unfold P in *; cbn in *; repeat split; auto; lia.
      + destruct ((0 <=? d) && _) eqn:Hd; [|discriminate].
        apply andb_true_iff in Hd as [Hd1 Hd2]; apply Z.leb_le in Hd1; apply Z.ltb_lt in Hd2.
        injection Hx as <- <-; destruct x as [[] ? ? ? ? ? ? ?];
          unfold P in *; cbn in *; repeat split; auto; lia.
      + destruct (nvic_unmasked x); [|discriminate].
        destruct (irq_eq x) as (x3 & k3 & Ex); rewrite Ex in Hx; injection Hx as <- <-.
        pose proof (irq_last_update x) as V; rewrite Ex in V; destruct V as (V & _).
        pose proof (irq_frame x) as G; rewrite Ex in G; destruct G as (G1 & _ & _ & G4 & _).
        pose proof (irq_pending_other x) as W; rewrite Ex in W.
        repeat split; try congruence; try lia.
        * rewrite V; auto.
        * apply (W InUpdate); exact P2.
      + rewrite P3 in Hx; discriminate.
    - apply Forall_forall; intros e Hin ->; contradiction.
    - unfold T in *; repeat split; try congruence; lia. }
  destruct HP as (P1 & _ & _ & P4).
  assert (HT : 0 <= T) by (unfold T; lia).
  rewrite query_watchdog, P1; cbn [timer last_update option_map].
  rewrite instant_sub_plain by lia.
  split; intros H.
  - rewrite (proj2 (Z.ltb_lt _ (2 ^ 63))) by lia; cbn [option_map].
    rewrite exceeds_100ms_iff; f_equal; apply Z.ltb_ge; lia.
  - rewrite (proj2 (Z.ltb_lt _ (2 ^ 63))) by lia; cbn [option_map].
    rewrite exceeds_100ms_iff; f_equal; apply Z.ltb_lt; lia.
Qed.

Lemma watchdog_after_update_edge_witness :
  query has_watchdog_expired
    (run_state (run_state c1_state [EvIrq]) [EvAdvance 100000; EvEdge InSteering; EvIrq])
  = Some false.
Proof.
  refine (proj1 (watchdog_after_update_edge c1_state (run_state c1_state [EvIrq])
    (run_state (run_state c1_state [EvIrq]) [EvAdvance 100000; EvEdge InSteering; EvIrq])
    (run_log c1_state [EvIrq])
    (run_log (run_state c1_state [EvIrq]) [EvAdvance 100000; EvEdge InSteering; EvIrq])
    [EvAdvance 100000; EvEdge InSteering; EvIrq]
    _ _ _ _ _ _) _).
  - exists [EvInit; EvIrq; EvAdvance 700; EvEdge InUpdate],
      (run_log init_state [EvInit; EvIrq; EvAdvance 700; EvEdge InUpdate]); reflexivity.
  - reflexivity.
  - reflexivity.
  - reflexivity.
  - reflexivity.
  - cbn; intuition discriminate.
  - vm_compute; discriminate.
Defined.

(** C2 (as stated): right after initialize_receiver, 50 ms into the timer
    and with no update edge ever handled, has_watchdog_expired is false. *)
Lemma watchdog_fresh_after_init :
  run init_state [EvInit; EvAdvance 50000] =
    Some (run_state init_state [EvInit; EvAdvance 50000], []) /\
  ~ In (AClearInterrupt InUpdate) (run_log init_state [EvInit; EvAdvance 50000]) /\
  query has_watchdog_expired (run_state init_state [EvInit; EvAdvance 50000]) = Some false.
Proof. split; [reflexivity|split; [cbn; tauto|reflexivity]]. Qed.

(** C2 (amended): as long as no update edge has been handled, has_watchdog_expired
    is true while no time source is installed, and once initialize_receiver
    has installed it (with last_update = instant 0) it is true exactly when
    the timer counter exceeds 100 ms (100000 us), as long as the counter is
    below 2^63 us; from 2^63 us on the subtraction panics. *)
Theorem watchdog_before_first_update_edge (tr : list Event) (s : State) (l : list Action) :
  run init_state tr = Some (s, l) -> ~ In (AClearInterrupt InUpdate) l ->
  query has_watchdog_expired s =
    match timer (LAST_UPDATE s) with
    | None => Some true
    | Some _ =>
        if timer_counter (hw s) <? 2 ^ 63 then Some (100000 <? timer_counter (hw s)) else None
    end.
Proof.
  intros Hr Hn.
  assert (H : Inv s /\ last_update (LAST_UPDATE s) = 0).
  { refine (run_preserve_without (fun x => Inv x /\ last_update (LAST_UPDATE x) = 0)
              (AClearInterrupt InUpdate) _ tr init_state s l _ Hr Hn).
    - intros x e x' k [HI HL] Hx Hk; split; [eapply step_Inv; eauto|].
      destruct e; cbn [step] in Hx.
      + injection Hx as <- <-; destruct x; exact HL.
      + injection Hx as <- <-; destruct x; exact HL.
      + destruct ((0 <=? d) && _); [|discriminate]; injection Hx as <- <-; destruct x; exact HL.
      + destruct (nvic_unmasked x); [|discriminate].
        destruct (irq_eq x) as (x3 & k3 & Ex); rewrite Ex in Hx; injection Hx as <- <-.
        pose proof (irq_last_update x) as V; rewrite Ex in V; destruct V as (_ & _ & V).
        rewrite (V Hk); exact HL.
      + destruct (peripherals_taken x); [discriminate|]; injection Hx as <- <-.
        destruct x; reflexivity.
    - split; [exact Inv_init|reflexivity]. }
  destruct H as [(Hc & _) HL].
  rewrite query_watchdog, HL; destruct (timer (LAST_UPDATE s)); [|reflexivity].
  rewrite instant_sub_plain, Z.sub_0_r by lia.
  destruct (timer_counter (hw s) <? 2 ^ 63); cbn [option_map]; [|reflexivity].
  rewrite exceeds_100ms_iff; reflexivity.
Qed.

Lemma watchdog_before_first_update_edge_witness :
  query has_watchdog_expired (run_state init_state [EvInit; EvAdvance 150000; EvEdge InSteering; EvIrq])
  = (if 150000 <? 2 ^ 63 then Some (100000 <? 150000) else None).
Proof.
  exact (watchdog_before_first_update_edge [EvInit; EvAdvance 150000; EvEdge InSteering; EvIrq]
    (run_state init_state [EvInit; EvAdvance 150000; EvEdge InSteering; EvIrq])
    (run_log init_state [EvInit; EvAdvance 150000; EvEdge InSteering; EvIrq])
    eq_refl ltac:(cbn; intuition discriminate)).
Defined.

(** C6: the first IO_IRQ_BANK0 run with an empty local cache moves the
    handles out of GLOBAL_PINS, and once the cache holds them GLOBAL_PINS is
    empty in every later state. *)
Theorem ownership_handoff_once (s : State) :
  reachable s ->
  (GLOBALS s = None -> forall s1 l1, step s EvIrq = Some (s1, l1) ->
     GLOBALS s1 = GLOBAL_PINS s /\ GLOBALS s1 <> None /\ GLOBAL_PINS s1 = None) /\
  (GLOBALS s <> None -> forall tr s' l', run s tr = Some (s', l') ->
     GLOBALS s' = GLOBALS s /\ GLOBAL_PINS s' = None).
Proof.
  intros Hre; destruct (reachable_Inv s Hre) as (Hc & Hf & Ht); split.
  - intros HG s1 l1 Hs; cbn [step] in Hs.
    destruct (nvic_unmasked s) eqn:Hnv; [|discriminate].
    destruct (peripherals_taken s) eqn:Htk;
      [|destruct (Hf eq_refl) as (H & _); congruence].
    destruct (Ht eq_refl) as (_ & _ & [[_ Hp] | [Hg _]]); [|contradiction].
    destruct (irq_eq s) as (s3 & l3 & E); rewrite E in Hs; injection Hs as <- <-.
    pose proof (irq_frame s) as F; rewrite E in F; destruct F as (_ & _ & _ & _ & F5 & F6).
    rewrite HG in F5, F6; cbn in F5, F6; repeat split; congruence.
  - intros HG tr s' l' Hr.
    destruct (peripherals_taken s) eqn:Htk;
      [|destruct (Hf eq_refl) as (_ & H & _); contradiction].
    destruct (Ht eq_refl) as (_ & _ & [[H _] | [_ Hp]]); [contradiction|].
    pose (P := fun x : State =>
      GLOBALS x = GLOBALS s /\ GLOBAL_PINS x = None /\ peripherals_taken x = true).
    assert (HP : P s').
    { refine (run_preserve P (fun _ => True) _ tr s s' l' _ _ Hr).
      - intros x e x' k (P1 & P2 & P3) _ Hx; destruct e; cbn [step] in Hx.
        + injection Hx as <- <-; destruct x; exact (conj P1 (conj P2 P3)).
        + injection Hx as <- <-; destruct x; exact (conj P1 (conj P2 P3)).
        + destruct ((0 <=? d) && _); [|discriminate]; injection Hx as <- <-.
          destruct x; exact (conj P1 (conj P2 P3)).
        + destruct (nvic_unmasked x); [|discriminate].
          destruct (irq_eq x) as (x3 & k3 & Ex); rewrite Ex in Hx; injection Hx as <- <-.
          pose proof (irq_frame x) as G; rewrite Ex in G; destruct G as (G1 & _ & _ & _ & G5 & G6).
          rewrite P1 in G5, G6; destruct (GLOBALS s); [|contradiction].
          cbn in G5, G6; repeat split; congruence.
        + rewrite P3 in Hx; discriminate.
      - apply Forall_forall; auto.
      - repeat split; assumption. }
    destruct HP as (P1 & P2 & _); split; assumption.
Qed.

Lemma ownership_handoff_once_witness :
  GLOBALS (run_state init_state [EvInit; EvIrq]) = Some receiver_globals /\
  GLOBAL_PINS (run_state init_state [EvInit; EvIrq]) = None.
Proof.
  destruct (ownership_handoff_once (run_state init_state [EvInit])
              ltac:(exists [EvInit], (run_log init_state [EvInit]); reflexivity)) as [H1 _].
  destruct (H1 eq_refl (run_state init_state [EvInit; EvIrq]) (run_log init_state [EvInit; EvIrq])
              eq_refl) as (A & _ & C).
  split; [exact A | exact C].
Defined.

(** C8: without a time source in LAST_UPDATE, has_watchdog_expired is true
    whatever the stored last-update instant. *)
Theorem watchdog_expired_without_timer (s : State) :
  timer (LAST_UPDATE s) = None -> query has_watchdog_expired s = Some true.
Proof. intros H; rewrite query_watchdog, H; reflexivity. Qed.

Lemma watchdog_expired_without_timer_witness :
  query has_watchdog_expired
    (with_LAST_UPDATE {| timer := None; last_update := 12345 |} init_state) = Some true.
Proof. apply watchdog_expired_without_timer; reflexivity. Defined.

(** C10: with both the local cache and GLOBAL_PINS empty, IO_IRQ_BANK0
    changes nothing and performs no hardware operation. *)
Theorem irq_without_handles_is_noop (s : State) :
  GLOBALS s = None -> GLOBAL_PINS s = None -> IO_IRQ_BANK0 s = (tt, s, []).
Proof.
  destruct s as [h st th lu gp gl nv pk]; cbn; intros -> ->; reflexivity.
Qed.

Lemma irq_without_handles_is_noop_witness :
  IO_IRQ_BANK0 (run_state init_state [EvEdge InSteering; EvTick SlicePwm1; EvEdge InUpdate])
  = (tt, run_state init_state [EvEdge InSteering; EvTick SlicePwm1; EvEdge InUpdate], []).
Proof. apply irq_without_handles_is_noop; reflexivity. Defined.

(** C5 (as stated): two steering edges 65536 counter ticks apart; after the
    second edge's interrupt steering() reads 0, not 65536, because the PWM
    counter is 16 bits wide and wraps at TOP = 0xFFFF. *)
Lemma steering_width_wraps :
  count_ticks SlicePwm1 (repeat (EvTick SlicePwm1) (Z.to_nat 65536)) = Z.to_nat 65536 /\
  query steering
    (run_state init_state
       ([EvInit; EvEdge InSteering; EvIrq] ++ repeat (EvTick SlicePwm1) (Z.to_nat 65536) ++
        [EvEdge InSteering; EvIrq])) = 0.
Proof.
  split; [apply count_ticks_repeat|].
  unfold run_state; rewrite run_app.
  destruct (run init_state [EvInit; EvEdge InSteering; EvIrq]) as [[s0 l0]|] eqn:E0;
    [|vm_compute in E0; discriminate].
  vm_compute in E0; injection E0 as <- <-.
  rewrite run_app, run_ticks.
  cbn [counter hw].
  cbn [with_hw counter set_counter_reg counter_pwm1].
  rewrite iter_pwm_tick, Z2Nat.id by lia.
  vm_compute; reflexivity.
Qed.

(** C5 (amended): a handled falling edge on a PWM input reads the slice
    counter, zeroes it, clears the input's EdgeLow flag once and stores the
    count with release ordering, in this order; the published width stays
    the same until the next edge of that input is handled, which publishes
    the number N of ticks counted in between, modulo 2^16. *)
Theorem pwm_edge_measurement (ch : PwmChannel) (s s1 s2 s3 : State)
    (l1 l2 l3 : list Action) (tr : list Event) :
  reachable s -> peripherals_taken s = true -> pending (hw s) (ch_input ch) = true ->
  step s EvIrq = Some (s1, l1) ->
  run s1 tr = Some (s2, l2) -> ~ In (EvEdge (ch_input ch)) tr ->
  run s2 [EvEdge (ch_input ch); EvIrq] = Some (s3, l3) ->
  filter (ch_action ch) l1 =
    [AGetCounter (ch_slice ch); ASetCounter (ch_slice ch) 0;
     AClearInterrupt (ch_input ch);
     AStore (ch_atomic ch) (counter (hw s) (ch_slice ch)) Release] /\
  query (ch_query ch) s1 = counter (hw s) (ch_slice ch) /\
  query (ch_query ch) s2 = counter (hw s) (ch_slice ch) /\
  query (ch_query ch) s3 = Z.of_nat (count_ticks (ch_slice ch) tr) mod 2 ^ 16.
Proof.
  intros Hre Htk Hpc Hs1 Hr Hn Hr3.
  destruct (reachable_Inv s Hre) as (Hc & _ & Ht); destruct (Ht Htk) as (Hnv & Htm & Hg).
  cbn [step] in Hs1; rewrite Hnv in Hs1.
  destruct (irq_eq s) as (s4 & l4 & E); rewrite E in Hs1; injection Hs1 as <- <-.
  assert (Hhp : handles_present s = true).
  { unfold handles_present; destruct Hg as [[-> G] | [G _]];
      [destruct (GLOBAL_PINS s) | destruct (GLOBALS s)]; cbn; congruence. }
  pose proof (irq_channel ch s) as C; rewrite E in C; destruct C as [C _].
  destruct (C Hpc Hhp) as (C1 & C2 & C3 & C4).
  pose proof (irq_frame s) as F; rewrite E in F; destruct F as (_ & F2 & _ & _ & F5 & _).
  assert (HG4 : GLOBALS s4 <> None).
  { rewrite F5; destruct Hg as [[-> G] | [G _]]; cbn; [exact G|].
    destruct (GLOBALS s); [discriminate|contradiction]. }
  destruct (run_channel_quiet ch tr s4 s2 l2 Hr Hn C4) as (Q1 & Q2 & Q3 & Q4 & Q5).
  rewrite C3, iter_pwm_tick in Q3.
  split; [exact C1|].
  rewrite !query_ch; split; [exact C2|split; [congruence|]].
  (* the second edge and its interrupt *)
  cbn [run step] in Hr3.
  set (s5 := with_hw (fun h => set_pending h (ch_input ch) true) s2) in Hr3.
  assert (Hs5 : nvic_unmasked s5 = nvic_unmasked s2 /\ GLOBALS s5 = GLOBALS s2 /\
                pending (hw s5) (ch_input ch) = true /\
                counter (hw s5) (ch_slice ch) = counter (hw s2) (ch_slice ch))
    by (unfold s5; destruct s2 as [[] ? ? ? ? ? ? ?], ch; repeat split).
  destruct Hs5 as (S1 & S2 & S3 & S4).
  assert (Hnv5 : nvic_unmasked s5 = true) by (rewrite S1; apply Q5; congruence).
  rewrite Hnv5 in Hr3.
  destruct (irq_eq s5) as (s6 & l6 & E6); rewrite E6 in Hr3.
  injection Hr3 as <- <-.
  assert (Hh5 : handles_present s5 = true).
  { unfold handles_present; rewrite S2; destruct (GLOBALS s2); [reflexivity|].
    exfalso; exact (Q4 HG4 eq_refl). }
  pose proof (irq_channel ch s5) as D; rewrite E6 in D; destruct D as [D _].
  destruct (D S3 Hh5) as (_ & D2 & _ & _).
  rewrite D2, S4; exact Q3.
Qed.

Lemma pwm_edge_measurement_witness :
  query steering
    (run_state
       (run_state (run_state (run_state c1_state [EvEdge InSteering]) [EvIrq])
          [EvTick SlicePwm1; EvTick SlicePwm1; EvEdge InThrottle; EvIrq; EvTick SlicePwm1])
       [EvEdge InSteering; EvIrq]) = 3.
Proof.
  set (s := run_state c1_state [EvEdge InSteering]).
  set (tr := [EvTick SlicePwm1; EvTick SlicePwm1; EvEdge InThrottle; EvIrq; EvTick SlicePwm1]).
  refine (eq_trans (proj2 (proj2 (proj2
    (pwm_edge_measurement ChSteering s (run_state s [EvIrq]) (run_state (run_state s [EvIrq]) tr)
       (run_state (run_state (run_state s [EvIrq]) tr) [EvEdge InSteering; EvIrq])
       (run_log s [EvIrq]) (run_log (run_state s [EvIrq]) tr)
       (run_log (run_state (run_state s [EvIrq]) tr) [EvEdge InSteering; EvIrq]) tr
       _ _ _ _ _ _ _)))) _).
  - exists [EvInit; EvIrq; EvAdvance 700; EvEdge InUpdate; EvEdge InSteering],
      (run_log init_state [EvInit; EvIrq; EvAdvance 700; EvEdge InUpdate; EvEdge InSteering]).
    vm_compute; reflexivity.
  - vm_compute; reflexivity.
  - vm_compute; reflexivity.
  - vm_compute; reflexivity.
  - vm_compute; reflexivity.
  - cbn; intuition discriminate.
  - vm_compute; reflexivity.
  - vm_compute; reflexivity.
Defined.

(** C7: steering() and throttle() return the value of the last store the
    interrupt handler made to their slot, 0 before any; with no falling edge
    on the input (and none latched) the value stays as it is. *)
Theorem pwm_width_last_published (ch : PwmChannel) (tr : list Event) (s : State) (l : list Action) :
  run init_state tr = Some (s, l) ->
  query (ch_query ch) s = last_store (ch_atomic ch) l 0 /\
  ((forall v o, ~ In (AStore (ch_atomic ch) v o) l) -> query (ch_query ch) s = 0) /\
  (forall tr' s' l', run s tr' = Some (s', l') -> ~ In (EvEdge (ch_input ch)) tr' ->
     pending (hw s) (ch_input ch) = false -> query (ch_query ch) s' = query (ch_query ch) s).
Proof.
  intros Hr; rewrite !query_ch.
  assert (H0 : atomic s (ch_atomic ch) = last_store (ch_atomic ch) l 0).
  { rewrite (run_last_store (ch_atomic ch) tr init_state s l Hr); destruct ch; reflexivity. }
  split; [exact H0|split].
  - intros Hno; rewrite H0; apply last_store_none; exact Hno.
  - intros tr' s' l' Hr' Hn Hp; rewrite query_ch.
    exact (proj1 (run_channel_quiet ch tr' s s' l' Hr' Hn Hp)).
Qed.

Lemma pwm_width_last_published_witness :
  query throttle (run_state init_state [EvInit; EvEdge InThrottle; EvTick SlicePwm2; EvIrq])
  = last_store ATHROTTLE
      (run_log init_state [EvInit; EvEdge InThrottle; EvTick SlicePwm2; EvIrq]) 0.
Proof.
  exact (proj1 (pwm_width_last_published ChThrottle
    [EvInit; EvEdge InThrottle; EvTick SlicePwm2; EvIrq]
    (run_state init_state [EvInit; EvEdge InThrottle; EvTick SlicePwm2; EvIrq])
    (run_log init_state [EvInit; EvEdge InThrottle; EvTick SlicePwm2; EvIrq]) eq_refl)).
Defined.

End ReceiverFacts.

Module LightsFacts.
Import Lights.

(** ** Word layout *)

Lemma lor_disjoint (a x k : Z) :
  0 <= k -> a mod 2 ^ k = 0 -> 0 <= x < 2 ^ k -> Z.lor a x = a + x.
Proof.
  intros Hk Ha Hx.
  assert (Hl : Z.land a x = 0).
  { apply Z.bits_inj'; intros n Hn; rewrite Z.land_spec, Z.bits_0.
    destruct (Z.lt_ge_cases n k) as [H|H].
    - rewrite <- (Z.mod_pow2_bits_low a k n H), Ha, Z.bits_0; reflexivity.
    - rewrite <- (Z.mod_small x (2 ^ k)) by lia.
      rewrite (Z.mod_pow2_bits_high x k n) by lia; apply andb_false_r. }
  rewrite Z.add_nocarry_lxor, Z.lxor_lor by exact Hl; reflexivity.
Qed.

Lemma u8_as_u32_range (b : Byte.byte) : 0 <= u8_as_u32 b < 256.
Proof. unfold u8_as_u32; pose proof (Byte.to_N_bounded b); lia. Qed.

Ltac mod0 q := apply Z.mod_divide; [lia | exists q; lia].

(** Or-ing the header and three channel bytes into place adds them. *)
Lemma pack_word (h l y : Z) :
  0 <= h < 256 -> 0 <= l < 256 -> 0 <= y < 256 ->
  Z.lor (Z.lor (Z.lor 0xFF000000 (u32_shl h 16)) (u32_shl l 8)) y =
  0xFF000000 + h * 65536 + l * 256 + y.
Proof.
  intros Hh Hl Hy; unfold u32_shl; rewrite !Z.shiftl_mul_pow2 by lia.
  change (2 ^ 32) with 4294967296; change (2 ^ 16) with 65536; change (2 ^ 8) with 256.
  rewrite (Z.mod_small (h * 65536)), (Z.mod_small (l * 256)) by lia.
  rewrite (lor_disjoint 0xFF000000 (h * 65536) 24) by (try mod0 255; cbn; lia).
  rewrite (lor_disjoint _ (l * 256) 16) by (try mod0 (65280 + h); cbn; lia).
  rewrite (lor_disjoint _ y 8) by (try mod0 (16711680 + h * 256 + l); cbn; lia).
  reflexivity.
Qed.

(** Reading the bytes back out of a packed word. *)
Lemma unpack_word (h l y : Z) :
  0 <= h < 256 -> 0 <= l < 256 -> 0 <= y < 256 ->
  let w := 0xFF000000 + h * 65536 + l * 256 + y in
  0 <= w < 2 ^ 32 /\ Z.shiftr w 24 = 0xFF /\ Z.land (Z.shiftr w 16) 0xFF = h /\
  Z.land (Z.shiftr w 8) 0xFF = l /\ Z.land w 0xFF = y.
Proof.
  intros Hh Hl Hy w.
  change 0xFF with (Z.ones 8); rewrite !Z.land_ones, !Z.shiftr_div_pow2 by lia.
  change (2 ^ 32) with 4294967296; change (2 ^ 24) with 16777216;
    change (2 ^ 16) with 65536; change (2 ^ 8) with 256; change (Z.ones 8) with 255.
  repeat split; try (unfold w; lia).
  - symmetry; apply (Z.div_unique _ _ _ (h * 65536 + l * 256 + y)); unfold w; lia.
  - rewrite <- (Z.div_unique w 65536 (65280 + h) (l * 256 + y)) by (unfold w; lia).
    symmetry; apply (Z.mod_unique _ _ 255); lia.
  - rewrite <- (Z.div_unique w 256 (16711680 + h * 256 + l) y) by (unfold w; lia).
    symmetry; apply (Z.mod_unique _ _ (65280 + h)); lia.
  - symmetry; apply (Z.mod_unique _ _ (16711680 + h * 256 + l)); unfold w; lia.
Qed.

(** ** Frame writers *)

Lemma frames_of_snoc (w w' : Writer) (v : Leds) (entries : list (Writer * Leds)) :
  frames_of w (entries ++ [(w', v)]) =
  frames_of w entries ++ (if writer_eqb w' w then [v] else []).
Proof.
  unfold frames_of; rewrite filter_app, map_app; cbn.
  destruct (writer_eqb w' w); reflexivity.
Qed.

Lemma sys_step_Frames (la lb : list Leds) (s s' : Sys) (e : Sched) :
  Frames la lb s -> sys_step s e = Some s' -> Frames la lb s'.
Proof.
  intros (entries & E1 & E2 & E3) Hs.
  destruct s as [f l i pa pb]; unfold calls, pending_calls in *; cbn in E1, E2, E3.
  destruct e as [w| | |]; cbn in Hs.
  - destruct i as [[w' rest]|]; [discriminate|].
    destruct w; cbn in Hs; [destruct pa as [|v pa] | destruct pb as [|v pb]];
      try discriminate; injection Hs as <-; cbn;
      [exists (entries ++ [(WriterA, v)]) | exists (entries ++ [(WriterB, v)])];
      (split; [|split]);
      try (rewrite map_app, concat_app, <- E1; cbn [concat map]; rewrite !app_nil_r; reflexivity);
      rewrite frames_of_snoc; cbn [writer_eqb]; rewrite <- ?app_assoc; assumption.
  - destruct i as [[w rest]|]; [|discriminate]; destruct rest as [|x xs]; [discriminate|].
    destruct (Tx_write f x) as [ok f']; injection Hs as <-; cbn.
    exists entries; split; [|split; assumption].
    rewrite <- E1; unfold calls, pending_calls; cbn [log inside]; rewrite map_app, <- app_assoc; reflexivity.
  - destruct i as [[w rest]|]; [|discriminate]; destruct rest; [|discriminate].
    injection Hs as <-; exists entries; cbn; rewrite app_nil_r in *; auto.
  - destruct f as [|x f]; [discriminate|]; injection Hs as <-; exists entries; auto.
Qed.

Lemma exec_Frames (la lb : list Leds) :
  forall sched s s', Frames la lb s -> exec s sched = Some s' -> Frames la lb s'.
Proof.
  intros sched; induction sched as [|e sched IH]; intros s s' H Hx; cbn in Hx.
  - injection Hx as <-; exact H.
  - destruct (sys_step s e) as [s1|] eqn:E; [|discriminate].
    exact (IH s1 s' (sys_step_Frames la lb s s1 e H E) Hx).
Qed.

Lemma exec_log (sched : list Sched) :
  forall s s', exec s sched = Some s' -> exists l, log s' = log s ++ l.
Proof.
  induction sched as [|e sched IH]; intros s s' Hx; cbn in Hx.
  - injection Hx as <-; exists []; rewrite app_nil_r; reflexivity.
  - destruct (sys_step s e) as [s1|] eqn:E; [|discriminate].
    destruct (IH s1 s' Hx) as [l2 H2]; rewrite H2.
    destruct s as [f l i pa pb], e as [w| | |]; cbn in E.
    + destruct i; [discriminate|].
      destruct w; cbn in E; [destruct pa | destruct pb]; try discriminate;
        injection E as <-; exists l2; reflexivity.
    + destruct i as [[w [|x xs]]|]; try discriminate.
      destruct (Tx_write f x) as [ok f']; injection E as <-.
      exists ((w, x, ok) :: l2); cbn; rewrite <- app_assoc; reflexivity.
    + destruct i as [[w [|x xs]]|]; try discriminate.
      injection E as <-; exists l2; reflexivity.
    + destruct f; [discriminate|]; injection E as <-; exists l2; reflexivity.
Qed.

(** Inside a critical section, while the FIFO and the words left fit in
    its 8 entries, every [Tx::write] call is accepted. *)
Lemma exec_frame_accepted (w : Writer) (frame : list Z) (L0 : list (Writer * Z * bool)) :
  forall sched s s' done rest,
  inside s = Some (w, rest) -> done ++ rest = frame ->
  (length (fifo s) + length rest <= TX_FIFO_DEPTH)%nat ->
  log s = L0 ++ map (fun x => (w, x, true)) done ->
  exec s sched = Some s' -> inside s' = None ->
  exists l, log s' = L0 ++ map (fun x => (w, x, true)) frame ++ l.
Proof.
  intros sched; induction sched as [|e sched IH];
    intros s s' done rest Hi Hd Hlen Hl Hx Hn; cbn in Hx.
  - injection Hx as <-; congruence.
  - destruct (sys_step s e) as [s1|] eqn:E; [|discriminate].
    destruct s as [f l i pa pb]; cbn in Hi, Hlen, Hl; subst i l.
    destruct e as [w'| | |]; cbn in E; try discriminate.
    + destruct rest as [|x xs]; [discriminate|].
      unfold Tx_write in E; cbn [length] in Hlen.
      assert (Hf : Nat.ltb (length f) TX_FIFO_DEPTH = true) by (apply Nat.ltb_lt; lia).
      rewrite Hf in E; injection E as <-.
      refine (IH _ s' (done ++ [x]) xs _ _ _ _ Hx Hn); cbn;
        [reflexivity | rewrite <- app_assoc; exact Hd | rewrite length_app; cbn; lia
        | rewrite map_app, app_assoc; reflexivity].
    + destruct rest; [|discriminate]; injection E as <-.
      rewrite app_nil_r in Hd; subst done.
      destruct (exec_log sched _ s' Hx) as [l2 H2]; cbn in H2.
      exists l2; rewrite H2, <- app_assoc; reflexivity.
    + destruct f as [|y f]; [discriminate|]; injection E as <-.
      refine (IH _ s' done rest _ Hd _ _ Hx Hn); cbn in *; [reflexivity | lia | reflexivity].
Qed.

Lemma initialize_lights_exact (overflow_checks : bool) (f pin : Z) :
  0 <= f < 2 ^ 32 -> f mod (871000 * (t1 + t2 + t3)) * 256 < 2 ^ 32 ->
  initialize_lights overflow_checks f pin =
  Some {| side_set_pin_base := pin; out_shift_right := true; autopull := false;
          pull_threshold := 24; clkdiv_int := f / (871000 * (t1 + t2 + t3));
          clkdiv_frac := f mod (871000 * (t1 + t2 + t3)) * 256 / (871000 * (t1 + t2 + t3));
          only_tx := true |}.
Proof.
  intros Hf Hr; unfold initialize_lights, u32_mul, t1, t2, t3 in *.
  change ((8 + 6 + 8) mod 2 ^ 32) with 22; change (871000 * 22 <? 2 ^ 32) with true;
    change (871000 * (8 + 6 + 8)) with 19162000 in *; cbv iota beta.
  change (871000 * 22) with 19162000.
  rewrite (proj2 (Z.ltb_lt _ _) Hr).
  pose proof (Z.mod_pos_bound f 19162000 ltac:(lia)).
  do 2 f_equal; apply Z.mod_small; split.
  - apply Z.div_pos; lia.
  - apply Z.div_lt_upper_bound; lia.
  - apply Z.div_pos; lia.
  - apply Z.div_lt_upper_bound; lia.
Qed.

(** ** Claims about lights.rs *)

(** C3: the word [From<FrontLeds>] (resp. [From<RearLeds>]) makes of a
    fixture colour is a u32 whose bits 24-31 are 0xFF and whose bits 16-23,
    8-15 and 0-7 are the high_beam (red), low_beam (white) and yellow
    bytes; the word is a function of the colour alone. *)
Theorem fixture_word_layout (f : FrontLeds) (r : RearLeds) :
  (let w := u32_from_FrontLeds f in
   0 <= w < 2 ^ 32 /\ Z.shiftr w 24 = 0xFF /\
   Z.land (Z.shiftr w 16) 0xFF = u8_as_u32 (high_beam f) /\
   Z.land (Z.shiftr w 8) 0xFF = u8_as_u32 (low_beam f) /\
   Z.land w 0xFF = u8_as_u32 (yellow f)) /\
  (let w := u32_from_RearLeds r in
   0 <= w < 2 ^ 32 /\ Z.shiftr w 24 = 0xFF /\
   Z.land (Z.shiftr w 16) 0xFF = u8_as_u32 (red r) /\
   Z.land (Z.shiftr w 8) 0xFF = u8_as_u32 (white r) /\
   Z.land w 0xFF = u8_as_u32 (rear_yellow r)).
Proof.
  split; [unfold u32_from_FrontLeds | unfold u32_from_RearLeds]; cbv zeta;
    rewrite pack_word by apply u8_as_u32_range; apply unpack_word; apply u8_as_u32_range.
Qed.

(** C4: [Tx::write] does not block and [Leds::write] ignores its result.
    Two frames written back to back, before the state machine has pulled any
    word, overflow the 8-entry FIFO: the second [Leds::write] makes all 7
    calls inside its critical section, but only its first word is enqueued
    and the other six, including the 0 and 42 of the stop sequence, are
    dropped. *)
Lemma second_frame_dropped :
  let sched := [SEnter WriterA] ++ repeat SWrite 7 ++ [SExit; SEnter WriterB] ++
               repeat SWrite 7 ++ [SExit] in
  option_map calls (exec (start [main_leds] [main_leds]) sched) =
    Some (tagged_frame (WriterA, main_leds) ++ tagged_frame (WriterB, main_leds)) /\
  option_map enqueued (exec (start [main_leds] [main_leds]) sched) =
    Some (Leds_write_body main_leds ++ firstn 1 (Leds_write_body main_leds)).
Proof. vm_compute; split; reflexivity. Qed.

(** C9: for a system clock f whose remainder modulo 871000 * 22 is at least
    2^24, [remainder * 256] overflows u32: at 133 MHz the fractional divisor
    is 240, the release build computes 16 and the debug build panics. *)
Theorem clock_divisor_overflow :
  let M := 871000 * (t1 + t2 + t3) in
  133000000 mod M * 256 / M = 240 /\ 133000000 / M = 6 /\
  option_map (fun c => (clkdiv_int c, clkdiv_frac c)) (initialize_lights false 133000000 8) =
    Some (6, 16) /\
  initialize_lights true 133000000 8 = None.
Proof. vm_compute; repeat split. Qed.

End LightsFacts.

(** * Further properties of receiver.rs *)

Module ReceiverMore.
Import Receiver ReceiverFacts.

(** A handler run that finds the handles leaves no EdgeLow flag latched,
    and a second run before any new edge leaves the whole state unchanged
    and makes no counter read or write, flag clear or atomic store (it only
    reads the three interrupt status flags, which the trace does not
    record). *)
Theorem irq_clears_all_flags (s s1 : State) (l : list Action) :
  handles_present s = true -> IO_IRQ_BANK0 s = (tt, s1, l) ->
  (forall p, pending (hw s1) p = false) /\ IO_IRQ_BANK0 s1 = (tt, s1, []).
Proof.
  irq_cases s; intros H E; try discriminate; injection E as <- _;
    (split; [intros []; reflexivity | reflexivity]).
Qed.

Lemma irq_clears_all_flags_witness :
  (forall p, pending (hw (run_state c1_state [EvIrq])) p = false) /\
  IO_IRQ_BANK0 (run_state c1_state [EvIrq]) = (tt, run_state c1_state [EvIrq], []).
Proof.
  refine (irq_clears_all_flags c1_state _ (run_log c1_state [EvIrq]) _ _).
  - vm_compute; reflexivity.
  - vm_compute; reflexivity.
Defined.

Lemma step_last_update_le (s s' : State) (e : Event) (l : list Action) :
  Inv s -> 0 <= last_update (LAST_UPDATE s) <= timer_counter (hw s) ->
  step s e = Some (s', l) -> 0 <= last_update (LAST_UPDATE s') <= timer_counter (hw s').
Proof.
  intros (Hc & _) Hl Hs; destruct e; cbn [step] in Hs.
  - injection Hs as <- <-; destruct s as [[] ? ? ? ? ? ? ?], sl; exact Hl.
  - injection Hs as <- <-; destruct s as [[] ? ? ? ? ? ? ?], p; exact Hl.
  - destruct ((0 <=? d) && _) eqn:Hd; [|discriminate].
    apply andb_true_iff in Hd as [Hd1 _]; apply Z.leb_le in Hd1.
    injection Hs as <- <-; destruct s as [[] ? ? ? ? ? ? ?]; cbn in *; lia.
  - destruct (nvic_unmasked s); [|discriminate].
    destruct (irq_eq s) as (s1 & l1 & E); rewrite E in Hs; injection Hs as <- <-.
    pose proof (irq_frame s) as F; rewrite E in F; destruct F as (_ & _ & _ & F4 & _).
    pose proof (irq_last_update s) as U; rewrite E in U; destruct U as (U1 & U2 & _).
    rewrite F4.
    destruct (pending_update (hw s)) eqn:Hu, (handles_present s) eqn:Hh;
      try (rewrite U1 by auto; exact Hl).
    destruct (U2 eq_refl eq_refl) as [-> _].
    destruct (timer (LAST_UPDATE s)); cbn; lia.
  - destruct (peripherals_taken s); [discriminate|].
    injection Hs as <- <-; destruct s as [[] ? ? ? ? ? ? ?]; cbn in *; lia.
Qed.

Lemma watchdog_query_reachable (s : State) :
  reachable s ->
  0 <= last_update (LAST_UPDATE s) <= timer_counter (hw s) /\
  query has_watchdog_expired s =
    match timer (LAST_UPDATE s) with
    | Some _ =>
        let d := timer_counter (hw s) - last_update (LAST_UPDATE s) in
        if d <? 2 ^ 63 then Some (100000 <? d) else None
    | None => Some true
    end.
Proof.
  intros Hre.
  assert (Hl : 0 <= last_update (LAST_UPDATE s) <= timer_counter (hw s)).
  { destruct Hre as (tr & l & Hr).
    refine (proj2 (run_preserve
      (fun x => Inv x /\ 0 <= last_update (LAST_UPDATE x) <= timer_counter (hw x))
      (fun _ => True) _ tr init_state s l _ _ Hr)).
    - intros x e x' k [Hi Hx] _ Hs; split;
        [exact (step_Inv x x' e k Hi Hs) | exact (step_last_update_le x x' e k Hi Hx Hs)].
    - apply Forall_forall; auto.
    - split; [exact Inv_init | cbn; lia]. }
  split; [exact Hl|].
  rewrite query_watchdog; destruct (timer (LAST_UPDATE s)); [|reflexivity].
  destruct (reachable_Inv s Hre) as (Hc & _).
  rewrite instant_sub_plain by lia; cbv zeta.
  destruct (_ <? 2 ^ 63); cbn [option_map]; [|reflexivity].
  rewrite exceeds_100ms_iff; reflexivity.
Qed.

(** In every reachable state the stored last-update instant is not after
    the current timer instant, so the u64 subtraction in
    has_watchdog_expired never wraps: it panics exactly when the difference
    d is 2^63 us or more, and otherwise the query compares d itself with
    100 ms. *)
Theorem last_update_not_ahead (s : State) :
  reachable s ->
  0 <= last_update (LAST_UPDATE s) <= timer_counter (hw s) /\
  query has_watchdog_expired s =
    match timer (LAST_UPDATE s) with
    | Some _ =>
        let d := timer_counter (hw s) - last_update (LAST_UPDATE s) in
        if d <? 2 ^ 63 then Some (100000 <? d) else None
    | None => Some true
    end.
Proof. intros Hre; exact (watchdog_query_reachable s Hre). Qed.

Lemma last_update_not_ahead_witness :
  0 <= last_update (LAST_UPDATE c1_state) <= timer_counter (hw c1_state) /\
  query has_watchdog_expired c1_state =
    match timer (LAST_UPDATE c1_state) with
    | Some _ =>
        let d := timer_counter (hw c1_state) - last_update (LAST_UPDATE c1_state) in
        if d <? 2 ^ 63 then Some (100000 <? d) else None
    | None => Some true
    end.
Proof.
  apply last_update_not_ahead.
  exists [EvInit; EvIrq; EvAdvance 700; EvEdge InUpdate],
    (run_log init_state [EvInit; EvIrq; EvAdvance 700; EvEdge InUpdate]).
  vm_compute; reflexivity.
Defined.

(** Once the receiver is initialised, a watchdog that has expired never
    reports fresh again, whatever happens, until an update edge is handled
    (the handler clears the update input's flag): while the timer counter is
    below 2^63 us the query stays true. *)
Theorem watchdog_stays_expired (s s' : State) (tr : list Event) (l : list Action) :
  reachable s -> peripherals_taken s = true ->
  run s tr = Some (s', l) -> ~ In (AClearInterrupt InUpdate) l ->
  query has_watchdog_expired s = Some true ->
  query has_watchdog_expired s' <> Some false /\
  (timer_counter (hw s') < 2 ^ 63 -> query has_watchdog_expired s' = Some true).
Proof.
  intros Hre Htk Hr Hn He.
  pose (P := fun x : State => LAST_UPDATE x = LAST_UPDATE s /\ peripherals_taken x = true /\
                              timer_counter (hw s) <= timer_counter (hw x)).
  assert (HP : P s').
  { refine (run_preserve_without P (AClearInterrupt InUpdate) _ tr s s' l _ Hr Hn).
    - intros x e x' k (P1 & P2 & P3) Hs Hk; destruct e; cbn [step] in Hs.
      + injection Hs as <- <-; destruct x as [[] ? ? ? ? ? ? ?], sl; exact (conj P1 (conj P2 P3)).
      + injection Hs as <- <-; destruct x as [[] ? ? ? ? ? ? ?], p; exact (conj P1 (conj P2 P3)).
      + destruct ((0 <=? d) && _) eqn:Hd; [|discriminate].
        apply andb_true_iff in Hd as [Hd1 _]; apply Z.leb_le in Hd1.
        injection Hs as <- <-; destruct x as [[] ? ? ? ? ? ? ?]; cbn in *.
        unfold P; cbn; repeat split; auto; lia.
      + destruct (nvic_unmasked x); [|discriminate].
        destruct (irq_eq x) as (x1 & k1 & E); rewrite E in Hs; injection Hs as <- <-.
        pose proof (irq_frame x) as F; rewrite E in F; destruct F as (F1 & _ & _ & F4 & _).
        pose proof (irq_last_update x) as U; rewrite E in U; destruct U as (_ & _ & U3).
        repeat split; [rewrite (U3 Hk); exact P1 | congruence | rewrite F4; exact P3].
      + rewrite P2 in Hs; discriminate.
    - unfold P; repeat split; [exact Htk | lia]. }
  destruct HP as (P1 & _ & P3).
  destruct (watchdog_query_reachable s Hre) as (L1 & E1).
  destruct (watchdog_query_reachable s' (run_reachable s s' tr l Hre Hr)) as (L2 & E2).
  rewrite E1 in He; rewrite E2, P1; rewrite P1 in L2.
  destruct (timer (LAST_UPDATE s)); [|split; [discriminate | reflexivity]].
  cbv zeta in *.
  destruct (timer_counter (hw s) - last_update (LAST_UPDATE s) <? 2 ^ 63); [|discriminate].
  injection He as He; apply Z.ltb_lt in He.
  destruct (Z.ltb_spec (timer_counter (hw s') - last_update (LAST_UPDATE s)) (2 ^ 63)).
  - rewrite (proj2 (Z.ltb_lt 100000 _)) by lia; split; [discriminate | reflexivity].
  - split; [discriminate | intros; lia].
Qed.

Lemma watchdog_stays_expired_witness :
  query has_watchdog_expired
    (run_state (run_state init_state [EvInit; EvAdvance 150000])
       [EvEdge InSteering; EvIrq; EvAdvance 20; EvEdge InThrottle; EvIrq]) <> Some false /\
  (timer_counter (hw (run_state (run_state init_state [EvInit; EvAdvance 150000])
       [EvEdge InSteering; EvIrq; EvAdvance 20; EvEdge InThrottle; EvIrq])) < 2 ^ 63 ->
   query has_watchdog_expired
    (run_state (run_state init_state [EvInit; EvAdvance 150000])
       [EvEdge InSteering; EvIrq; EvAdvance 20; EvEdge InThrottle; EvIrq]) = Some true).
Proof.
  refine (watchdog_stays_expired (run_state init_state [EvInit; EvAdvance 150000]) _
            [EvEdge InSteering; EvIrq; EvAdvance 20; EvEdge InThrottle; EvIrq]
            (run_log (run_state init_state [EvInit; EvAdvance 150000])
               [EvEdge InSteering; EvIrq; EvAdvance 20; EvEdge InThrottle; EvIrq])
            _ _ _ _ _).
  - exists [EvInit; EvAdvance 150000], (run_log init_state [EvInit; EvAdvance 150000]).
    vm_compute; reflexivity.
  - vm_compute; reflexivity.
  - vm_compute; reflexivity.
  - vm_compute; intuition discriminate.
  - vm_compute; reflexivity.
Defined.

(** The receiver's hardware handles are never lost nor duplicated: before
    initialize_receiver neither GLOBAL_PINS nor the handler's cache holds
    them, and afterwards exactly one of the two does, in every reachable
    state. *)
Theorem handles_held_once (s : State) :
  reachable s ->
  (peripherals_taken s = false -> GLOBALS s = None /\ GLOBAL_PINS s = None) /\
  (peripherals_taken s = true -> (GLOBALS s = None <-> GLOBAL_PINS s <> None)).
Proof.
  intros Hre; destruct (reachable_Inv s Hre) as (_ & Hf & Ht); split.
  - intros H; destruct (Hf H) as (_ & A & B & _); split; assumption.
  - intros H; destruct (Ht H) as (_ & _ & [[A B] | [A B]]); split; intros C; congruence.
Qed.

Lemma handles_held_once_witness :
  GLOBALS (run_state init_state [EvInit]) = None <->
  GLOBAL_PINS (run_state init_state [EvInit]) <> None.
Proof.
  refine (proj2 (handles_held_once (run_state init_state [EvInit]) _) _).
  - exists [EvInit], (run_log init_state [EvInit]); vm_compute; reflexivity.
  - vm_compute; reflexivity.
Defined.

End ReceiverMore.

Module LightsMore.
Import Lights LightsFacts.

(** ** The PIO program, instruction by instruction *)

Lemma pio_run_S (th n : nat) (s : PioSm) :
  pio_run th (S n) s =
  match pio_step th s with
  | Some (s1, t1) => match pio_run th n s1 with Some (s2, t2) => Some (s2, t1 ++ t2) | None => None end
  | None => None
  end.
Proof. reflexivity. Qed.

Lemma pio_run_step (th n : nat) (s s1 s2 : PioSm) (t1 t2 : list bool) :
  pio_step th s = Some (s1, t1) -> pio_run th n s1 = Some (s2, t2) ->
  pio_run th (S n) s = Some (s2, t1 ++ t2).
Proof. intros H1 H2; rewrite pio_run_S, H1, H2; reflexivity. Qed.

Lemma pio_run_add (th a b : nat) (s : PioSm) :
  pio_run th (a + b) s =
  match pio_run th a s with
  | Some (s1, t1) => match pio_run th b s1 with Some (s2, t2) => Some (s2, t1 ++ t2) | None => None end
  | None => None
  end.
Proof.
  revert s; induction a as [|a IH]; intros s; cbn [Nat.add pio_run].
  - destruct (pio_run th b s) as [[]|]; reflexivity.
  - destruct (pio_step th s) as [[s1 t1]|]; [|reflexivity].
    rewrite IH; destruct (pio_run th a s1) as [[s2 t2]|]; [|reflexivity].
    destruct (pio_run th b s2) as [[s3 t3]|]; [|reflexivity].
    rewrite app_assoc; reflexivity.
Qed.

Section Steps.
Variables (th : nat) (x y o : Z) (c : nat) (f : list Z).

Lemma step_pull_new_data (w : Z) :
  pio_step th (mkPioSm 0 x y o c (w :: f)) = Some (mkPioSm 1 x y w 0 f, [false]).
Proof. reflexivity. Qed.

Lemma step_pull_stall :
  pio_step th (mkPioSm 0 x y o c []) = Some (mkPioSm 0 x y o c [], [false]).
Proof. reflexivity. Qed.

Lemma step_mov_x_1 :
  pio_step th (mkPioSm 1 x y o c f) = Some (mkPioSm 2 o y o c f, [false]).
Proof. reflexivity. Qed.

Lemma step_jmp_not_x :
  pio_step th (mkPioSm 2 x y o c f) =
  Some (mkPioSm (if x =? 0 then 10 else 3) x y o c f, [false]).
Proof. reflexivity. Qed.

Lemma step_out_first :
  pio_step th (mkPioSm 3 x y o c f) =
  Some (mkPioSm 4 x (o mod 2) (Z.shiftr o 1) (Nat.min 32 (c + 1)) f, repeat false 3).
Proof. reflexivity. Qed.

Lemma step_jmp_check_bit :
  pio_step th (mkPioSm 4 x y o c f) = Some (mkPioSm 6 x y o c f, [false]).
Proof. reflexivity. Qed.

Lemma step_bitloop :
  pio_step th (mkPioSm 5 x y o c f) =
  Some (mkPioSm 6 x (o mod 2) (Z.shiftr o 1) (Nat.min 32 (c + 1)) f, repeat false 8).
Proof. reflexivity. Qed.

Lemma step_check_bit :
  pio_step th (mkPioSm 6 x y o c f) =
  Some (mkPioSm (if y =? 0 then 8 else 7) x y o c f, repeat true 8).
Proof. reflexivity. Qed.

Lemma step_do_one :
  pio_step th (mkPioSm 7 x y o c f) =
  Some (mkPioSm (if Nat.ltb c th then 5 else 9) x y o c f, repeat true 6).
Proof. reflexivity. Qed.

Lemma step_do_zero :
  pio_step th (mkPioSm 8 x y o c f) =
  Some (mkPioSm (if Nat.ltb c th then 5 else 9) x y o c f, repeat false 6).
Proof. reflexivity. Qed.

Lemma step_wrap_target :
  pio_step th (mkPioSm 9 x y o c f) = Some (mkPioSm 0 x y o c f, [false]).
Proof. reflexivity. Qed.

Lemma step_pull_do_stop (w : Z) :
  pio_step th (mkPioSm 10 x y o c (w :: f)) = Some (mkPioSm 11 x y w 0 f, [false]).
Proof. reflexivity. Qed.

Lemma step_mov_x_11 :
  pio_step th (mkPioSm 11 x y o c f) = Some (mkPioSm 12 o y o c f, [false]).
Proof. reflexivity. Qed.

Lemma step_keep_looping :
  pio_step th (mkPioSm 12 x y o c f) =
  Some (mkPioSm (if x =? 0 then 13 else 12) ((x - 1) mod 2 ^ 32) y o c f, repeat false 8).
Proof. cbn; destruct (x =? 0); reflexivity. Qed.

Lemma step_nop :
  pio_step th (mkPioSm 13 x y o c f) = Some (mkPioSm 14 x y o c f, repeat true 8).
Proof. reflexivity. Qed.

Lemma step_jmp_new_data :
  pio_step th (mkPioSm 14 x y o c f) = Some (mkPioSm 0 x y o c f, [false]).
Proof. reflexivity. Qed.

End Steps.

(** The output bit the [out y, 1] reads, as [Z.testbit]. *)
Lemma out_bit (w : Z) (n : nat) :
  Z.shiftr w (Z.of_nat n) mod 2 = Z.b2z (Z.testbit w (Z.of_nat n)).
Proof. rewrite Z.testbit_spec', Z.shiftr_div_pow2; lia. Qed.

Lemma bit_loop (w : Z) (f : list Z) (j : nat) :
  forall i : nat, (i + j = 23)%nat ->
  exists s', pio_run 24 (3 * S j)
               (mkPioSm 6 w (Z.b2z (Z.testbit w (Z.of_nat i))) (Z.shiftr w (Z.of_nat (S i))) (S i) f) =
             Some (s', concat (map (bit_wave w) (seq i (S j)))) /\ pc s' = 0%nat /\ txfifo s' = f.
Proof.
  induction j as [|j IH]; intros i Hij.
  - assert (i = 23%nat) by lia; subst i.
    cbn [seq map concat]; unfold bit_wave; rewrite app_nil_r; cbn [Nat.mul Nat.add].
    destruct (Z.testbit w (Z.of_nat 23)); cbn [Z.b2z]; eexists; split.
    + eapply pio_run_step; [apply step_check_bit|]; cbn [Z.eqb].
      eapply pio_run_step; [apply step_do_one|]; cbn [Nat.ltb Nat.leb].
      reflexivity.
    + split; reflexivity.
    + eapply pio_run_step; [apply step_check_bit|]; cbn [Z.eqb].
      eapply pio_run_step; [apply step_do_zero|]; cbn [Nat.ltb Nat.leb].
      reflexivity.
    + split; reflexivity.
  - destruct (IH (S i) ltac:(lia)) as (s' & Hr & Hpc & Hf).
    exists s'; split; [|auto].
    replace (3 * S (S j))%nat with (S (S (S (3 * S j)))) by lia.
    rewrite <- cons_seq, map_cons, concat_cons; unfold bit_wave at 1.
    replace (Nat.ltb i 23) with true by (symmetry; apply Nat.ltb_lt; lia).
    rewrite <- !app_assoc.
    assert (Hc : Nat.ltb (S i) 24 = true) by (apply Nat.ltb_lt; lia).
    assert (Hy : Z.shiftr w (Z.of_nat (S i)) mod 2 = Z.b2z (Z.testbit w (Z.of_nat (S i))))
      by apply out_bit.
    assert (Ho : Z.shiftr (Z.shiftr w (Z.of_nat (S i))) 1 = Z.shiftr w (Z.of_nat (S (S i))))
      by (rewrite Z.shiftr_shiftr by lia; f_equal; lia).
    assert (Hn : Nat.min 32 (S i + 1) = S (S i)) by lia.
    destruct (Z.testbit w (Z.of_nat i)); cbn [Z.b2z].
    + eapply pio_run_step; [apply step_check_bit|]; cbn [Z.eqb].
      eapply pio_run_step; [apply step_do_one|]; rewrite Hc.
      eapply pio_run_step; [apply step_bitloop|].
      rewrite Hy, Ho, Hn; exact Hr.
    + eapply pio_run_step; [apply step_check_bit|]; cbn [Z.eqb].
      eapply pio_run_step; [apply step_do_zero|]; rewrite Hc.
      eapply pio_run_step; [apply step_bitloop|].
      rewrite Hy, Ho, Hn; exact Hr.
Qed.

Lemma data_word_run (w x y o : Z) (c : nat) (rest : list Z) :
  w <> 0 ->
  exists s', pio_run 24 77 (mkPioSm 0 x y o c (w :: rest)) = Some (s', word_wave w) /\
             pc s' = 0%nat /\ txfifo s' = rest.
Proof.
  intros Hw.
  destruct (bit_loop w rest 23 0 eq_refl) as (s' & Hr & Hpc & Hf).
  exists s'; split; [|auto].
  change 77%nat with (S (S (S (S (S (3 * S 23)))))).
  unfold word_wave; set (T := concat (map (bit_wave w) (seq 0 24))).
  change (repeat false 7 ++ T) with ([false] ++ [false] ++ [false] ++ repeat false 3 ++ [false] ++ T).
  eapply pio_run_step; [apply step_pull_new_data|].
  eapply pio_run_step; [apply step_mov_x_1|].
  eapply pio_run_step; [apply step_jmp_not_x|]; rewrite (proj2 (Z.eqb_neq w 0) Hw).
  eapply pio_run_step; [apply step_out_first|].
  eapply pio_run_step; [apply step_jmp_check_bit|].
  assert (Hy : w mod 2 = Z.b2z (Z.testbit w (Z.of_nat 0)))
    by (rewrite <- out_bit; cbn [Z.of_nat]; rewrite Z.shiftr_0_r; reflexivity).
  rewrite Hy; exact Hr.
Qed.

Lemma words_run (rest : list Z) (ws : list Z) :
  forall s, pc s = 0%nat -> txfifo s = ws ++ rest -> Forall (fun w => w <> 0) ws ->
  exists s', pio_run 24 (77 * length ws) s = Some (s', concat (map word_wave ws)) /\
             pc s' = 0%nat /\ txfifo s' = rest.
Proof.
  induction ws as [|w ws IH]; intros s Hpc Hf Hnz.
  - exists s; rewrite Nat.mul_0_r; auto.
  - inversion Hnz as [|? ? Hw Hws]; subst.
    destruct s as [pc0 x y o c f]; cbn in Hpc, Hf; subst.
    destruct (data_word_run w x y o c (ws ++ rest) Hw) as (s1 & H1 & Hp1 & Hf1).
    destruct (IH s1 Hp1 Hf1 Hws) as (s2 & H2 & Hp2 & Hf2).
    exists s2; split; [|auto].
    replace (77 * length (w :: ws))%nat with (77 + 77 * length ws)%nat by (cbn; lia).
    rewrite pio_run_add, H1, H2; reflexivity.
Qed.

Lemma keep_loop (th : nat) (m : nat) :
  forall y o c f, Z.of_nat m < 2 ^ 32 ->
  exists s', pio_run th (S m) (mkPioSm 12 (Z.of_nat m) y o c f) = Some (s', repeat false (8 * S m)) /\
             pc s' = 13%nat /\ txfifo s' = f.
Proof.
  induction m as [|m IH]; intros y o c f Hm.
  - eexists; split; [reflexivity | split; reflexivity].
  - destruct (IH y o c f ltac:(lia)) as (s' & Hr & Hpc & Hf).
    exists s'; split; [|auto].
    replace (8 * S (S m))%nat with (8 + 8 * S m)%nat by lia; rewrite repeat_app.
    eapply pio_run_step; [apply step_keep_looping|].
    rewrite (proj2 (Z.eqb_neq (Z.of_nat (S m)) 0) ltac:(lia)).
    rewrite (Z.mod_small (Z.of_nat (S m) - 1)) by lia.
    replace (Z.of_nat (S m) - 1) with (Z.of_nat m) by lia; exact Hr.
Qed.

Lemma gap_run (th : nat) (n x y o : Z) (c : nat) (rest : list Z) :
  0 <= n < 2 ^ 32 ->
  exists s', pio_run th (Z.to_nat n + 8) (mkPioSm 0 x y o c (0 :: n :: rest)) = Some (s', gap_wave n) /\
             pc s' = 0%nat /\ txfifo s' = rest.
Proof.
  intros Hn; destruct (Z_of_nat_complete n (proj1 Hn)) as [m ->].
  destruct (keep_loop th m y (Z.of_nat m) 0 rest (proj2 Hn)) as (s' & Hr & Hpc & Hf).
  destruct s' as [pc' x' y' o' c' f']; cbn in Hpc, Hf; subst.
  eexists; split.
  { unfold gap_wave; rewrite Nat2Z.id.
    change (repeat false (5 + 8 * S m) ++ repeat true 8 ++ [false]) with
      ([false] ++ [false] ++ [false] ++ [false] ++ [false] ++
       (repeat false (8 * S m) ++ repeat true 8 ++ [false])).
    replace (m + 8)%nat with (S (S (S (S (S (S m + 2)))))) by lia.
    eapply pio_run_step; [apply step_pull_new_data|].
    eapply pio_run_step; [apply step_mov_x_1|].
    eapply pio_run_step; [apply step_jmp_not_x|]; cbn [Z.eqb].
    eapply pio_run_step; [apply step_pull_do_stop|].
    eapply pio_run_step; [apply step_mov_x_11|].
    rewrite pio_run_add, Hr; reflexivity. }
  split; reflexivity.
Qed.

Lemma idle_run (th k : nat) (x y o : Z) (c : nat) :
  pio_run th k (mkPioSm 0 x y o c []) = Some (mkPioSm 0 x y o c [], repeat false k).
Proof.
  induction k as [|k IH]; [reflexivity|].
  rewrite pio_run_S, step_pull_stall, IH; reflexivity.
Qed.

(** Only bits 0-23 of a data word shape its waveform. *)
Lemma word_wave_low24 (w1 w2 : Z) :
  w1 mod 2 ^ 24 = w2 mod 2 ^ 24 -> word_wave w1 = word_wave w2.
Proof.
  intros H; unfold word_wave; f_equal; f_equal; apply map_ext_in.
  intros i Hi; apply in_seq in Hi; unfold bit_wave.
  rewrite <- (Z.mod_pow2_bits_low w1 24 (Z.of_nat i)), <- (Z.mod_pow2_bits_low w2 24 (Z.of_nat i)), H
    by lia.
  reflexivity.
Qed.

(** The fixture words carry the 0xFF header, so none of them is zero. *)
Lemma fixture_words_range (fl : FrontLeds) (rl : RearLeds) :
  0xFF000000 <= u32_from_FrontLeds fl < 2 ^ 32 /\ 0xFF000000 <= u32_from_RearLeds rl < 2 ^ 32.
Proof.
  unfold u32_from_FrontLeds, u32_from_RearLeds; cbv zeta.
  rewrite !pack_word by apply u8_as_u32_range.
  pose proof (u8_as_u32_range (high_beam fl)); pose proof (u8_as_u32_range (low_beam fl));
    pose proof (u8_as_u32_range (yellow fl)); pose proof (u8_as_u32_range (red rl));
    pose proof (u8_as_u32_range (white rl)); pose proof (u8_as_u32_range (rear_yellow rl)).
  change (2 ^ 32) with 4294967296; lia.
Qed.

(** [initialize_lights] for every u32 system clock: the clock divisor with
    and without an overflow of [remainder * 256]. *)
Lemma initialize_lights_cases (overflow_checks : bool) (f pin : Z) :
  0 <= f < 2 ^ 32 ->
  initialize_lights overflow_checks f pin =
  if f mod 19162000 * 256 <? 2 ^ 32 then
    Some {| side_set_pin_base := pin; out_shift_right := true; autopull := false;
            pull_threshold := 24; clkdiv_int := f / 19162000;
            clkdiv_frac := f mod 19162000 * 256 / 19162000; only_tx := true |}
  else if overflow_checks then None
  else
    Some {| side_set_pin_base := pin; out_shift_right := true; autopull := false;
            pull_threshold := 24; clkdiv_int := f / 19162000;
            clkdiv_frac := (f mod 19162000 * 256) mod 2 ^ 32 / 19162000; only_tx := true |}.
Proof.
  intros Hf; unfold initialize_lights, u32_mul, t1, t2, t3.
  change ((8 + 6 + 8) mod 2 ^ 32) with 22; change (871000 * 22 <? 2 ^ 32) with true;
    cbv iota beta; change (871000 * 22) with 19162000.
  pose proof (Z.mod_pos_bound f 19162000 ltac:(lia)).
  assert (Hi : f / 19162000 mod 2 ^ 16 = f / 19162000).
  { apply Z.mod_small; split; [apply Z.div_pos | apply Z.div_lt_upper_bound]; lia. }
  assert (Hd : forall r, 0 <= r < 2 ^ 32 -> r / 19162000 mod 2 ^ 8 = r / 19162000).
  { intros r Hr; apply Z.mod_small; split; [apply Z.div_pos | apply Z.div_lt_upper_bound]; lia. }
  rewrite Hi; destruct (f mod 19162000 * 256 <? 2 ^ 32) eqn:E.
  - apply Z.ltb_lt in E; rewrite Hd by lia; reflexivity.
  - destruct overflow_checks; [reflexivity|].
    rewrite Hd by (apply Z.mod_pos_bound; lia); reflexivity.
Qed.

(** ** Extra properties of lights.rs *)

(** The state machine, with the pull threshold of 24 that [initialize_lights]
    configures, turns a non-zero u32 at the head of its FIFO into one data
    word: 77 instructions, 7 low cycles, then bits 0-23 least significant
    first, each 8 cycles high, 6 cycles at the bit's value and 8 cycles low
    (one after bit 23), and it is back at [new_data] with the word pulled. *)
Theorem pio_data_word (w : Z) (rest : list Z) (s : PioSm) :
  0 < w < 2 ^ 32 -> pc s = 0%nat -> txfifo s = w :: rest ->
  exists s', pio_run 24 77 s = Some (s', word_wave w) /\ pc s' = 0%nat /\ txfifo s' = rest.
Proof.
  intros Hw Hpc Hf; destruct s as [pc0 x y o c f]; cbn in Hpc, Hf; subst.
  apply data_word_run; lia.
Qed.

Lemma pio_data_word_witness :
  exists s', pio_run 24 77 (mkPioSm 0 0 0 0 0 [0xFF00002A; 42]) = Some (s', word_wave 0xFF00002A) /\
             pc s' = 0%nat /\ txfifo s' = [42].
Proof. apply (pio_data_word 0xFF00002A [42] (mkPioSm 0 0 0 0 0 [0xFF00002A; 42])); [lia | reflexivity | reflexivity]. Defined.

(** Bits 24-31 of a data word never reach the pin: two non-zero u32 words
    that agree on bits 0-23 give the same waveform. *)
Theorem pio_header_byte_unused (w1 w2 : Z) (r1 r2 : list Z) (s1 s2 : PioSm) :
  0 < w1 < 2 ^ 32 -> 0 < w2 < 2 ^ 32 -> w1 mod 2 ^ 24 = w2 mod 2 ^ 24 ->
  pc s1 = 0%nat -> pc s2 = 0%nat -> txfifo s1 = w1 :: r1 -> txfifo s2 = w2 :: r2 ->
  exists s1' s2' t, pio_run 24 77 s1 = Some (s1', t) /\ pio_run 24 77 s2 = Some (s2', t).
Proof.
  intros Hw1 Hw2 Hm Hp1 Hp2 Hf1 Hf2.
  destruct s1 as [pc1 x1 y1 o1 c1 f1], s2 as [pc2 x2 y2 o2 c2 f2]; cbn in *; subst.
  destruct (data_word_run w1 x1 y1 o1 c1 r1 ltac:(lia)) as (s1' & H1 & _).
  destruct (data_word_run w2 x2 y2 o2 c2 r2 ltac:(lia)) as (s2' & H2 & _).
  exists s1', s2', (word_wave w1); split; [exact H1|].
  rewrite (word_wave_low24 w1 w2 Hm); exact H2.
Qed.

Lemma pio_header_byte_unused_witness :
  exists s1' s2' t, pio_run 24 77 (mkPioSm 0 0 0 0 0 [0xFF00002A]) = Some (s1', t) /\
                    pio_run 24 77 (mkPioSm 0 0 0 0 0 [0x0100002A]) = Some (s2', t).
Proof.
  apply (pio_header_byte_unused 0xFF00002A 0x0100002A [] [] (mkPioSm 0 0 0 0 0 [0xFF00002A])
           (mkPioSm 0 0 0 0 0 [0x0100002A])); try reflexivity; lia.
Defined.

(** A zero word is the stop marker: the state machine pulls the next word n
    and, in n + 8 instructions, holds the pin low for 5 + 8 (n + 1) cycles,
    high for 8 cycles and low for one, then waits at [new_data] again. *)
Theorem pio_stop_marker (th : nat) (n : Z) (rest : list Z) (s : PioSm) :
  0 <= n < 2 ^ 32 -> pc s = 0%nat -> txfifo s = 0 :: n :: rest ->
  exists s', pio_run th (Z.to_nat n + 8) s = Some (s', gap_wave n) /\ pc s' = 0%nat /\
             txfifo s' = rest.
Proof.
  intros Hn Hpc Hf; destruct s as [pc0 x y o c f]; cbn in Hpc, Hf; subst.
  apply gap_run; exact Hn.
Qed.

Lemma pio_stop_marker_witness :
  exists s', pio_run 24 (Z.to_nat 42 + 8) (mkPioSm 0 0 0 0 0 [0; 42]) = Some (s', gap_wave 42) /\
             pc s' = 0%nat /\ txfifo s' = [].
Proof. apply (pio_stop_marker 24 42 [] (mkPioSm 0 0 0 0 0 [0; 42])); [lia | reflexivity | reflexivity]. Defined.

(** With its FIFO empty the state machine stalls on [pull] at [new_data] and
    the pin stays low, whatever the number of cycles. *)
Theorem pio_idle_low (th k : nat) (s : PioSm) :
  pc s = 0%nat -> txfifo s = [] -> pio_run th k s = Some (s, repeat false k).
Proof.
  intros Hpc Hf; destruct s as [pc0 x y o c f]; cbn in Hpc, Hf; subst; apply idle_run.
Qed.

Lemma pio_idle_low_witness :
  pio_run 24 5 (mkPioSm 0 7 1 3 24 []) = Some (mkPioSm 0 7 1 3 24 [], repeat false 5).
Proof. apply (pio_idle_low 24 5 (mkPioSm 0 7 1 3 24 [])); reflexivity. Defined.

(** The seven words of one [Leds::write], pulled by a state machine waiting
    at [new_data], give the four fixture words, the all-zero word 0xFF000000
    and a gap of 5 + 8 * 43 low cycles, 8 high and 1 low; the FIFO is then
    empty and the pin stays low until the next frame. *)
Theorem frame_waveform (v : Leds) (s : PioSm) :
  pc s = 0%nat -> txfifo s = Leds_write_body v ->
  exists s', pio_run 24 (77 * 5 + 50) s = Some (s', frame_wave v) /\ pc s' = 0%nat /\
             txfifo s' = [] /\ forall k, pio_run 24 k s' = Some (s', repeat false k).
Proof.
  intros Hpc Hf.
  destruct (fixture_words_range (front_left v) (rear_right v)) as [Ha Hc].
  destruct (fixture_words_range (front_right v) (rear_left v)) as [Hb Hd].
  destruct (words_run [0; 42] (firstn 5 (Leds_write_body v)) s Hpc Hf) as (s1 & H1 & Hp1 & Hf1).
  { cbn; repeat constructor; lia. }
  destruct s1 as [pc1 x y o c f1]; cbn in Hp1, Hf1; subst.
  destruct (gap_run 24 42 x y o c [] ltac:(lia)) as (s2 & H2 & Hp2 & Hf2).
  exists s2; split; [|split; [exact Hp2 | split; [exact Hf2|]]].
  - change (77 * 5 + 50)%nat with (77 * length (firstn 5 (Leds_write_body v)) + (Z.to_nat 42 + 8))%nat.
    rewrite pio_run_add, H1, H2; reflexivity.
  - destruct s2 as [pc2 x2 y2 o2 c2 f2]; cbn in Hp2, Hf2; subst; intros k; apply idle_run.
Qed.

Lemma frame_waveform_witness :
  exists s', pio_run 24 (77 * 5 + 50) (mkPioSm 0 0 0 0 0 (Leds_write_body main_leds)) =
               Some (s', frame_wave main_leds) /\ pc s' = 0%nat /\ txfifo s' = [] /\
             forall k, pio_run 24 k s' = Some (s', repeat false k).
Proof. apply (frame_waveform main_leds (mkPioSm 0 0 0 0 0 (Leds_write_body main_leds))); reflexivity. Defined.

(** Release build: for every u32 system clock f, [initialize_lights] returns
    the configuration with integer divisor f / 19162000 and fractional
    divisor ((f mod 19162000) * 256 mod 2^32) / 19162000, where 19162000 is
    871000 * (t1 + t2 + t3); the casts to u16 and u8 lose nothing. *)
Theorem clock_divisor_release (f pin : Z) :
  0 <= f < 2 ^ 32 ->
  initialize_lights false f pin =
  Some {| side_set_pin_base := pin; out_shift_right := true; autopull := false;
          pull_threshold := 24; clkdiv_int := f / 19162000;
          clkdiv_frac := (f mod 19162000 * 256) mod 2 ^ 32 / 19162000; only_tx := true |}.
Proof.
  intros Hf; rewrite initialize_lights_cases by exact Hf.
  destruct (f mod 19162000 * 256 <? 2 ^ 32) eqn:E; [|reflexivity].
  apply Z.ltb_lt in E; pose proof (Z.mod_pos_bound f 19162000 ltac:(lia)).
  rewrite (Z.mod_small (f mod 19162000 * 256)) by lia; reflexivity.
Qed.

Lemma clock_divisor_release_witness :
  initialize_lights false 125000000 25 =
  Some {| side_set_pin_base := 25; out_shift_right := true; autopull := false;
          pull_threshold := 24; clkdiv_int := 125000000 / 19162000;
          clkdiv_frac := (125000000 mod 19162000 * 256) mod 2 ^ 32 / 19162000; only_tx := true |}.
Proof. apply clock_divisor_release; lia. Defined.

(** Debug build: [initialize_lights] panics (here None) exactly for the
    u32 system clocks f with f mod 19162000 >= 2^24. *)
Theorem clock_divisor_debug_panic (f pin : Z) :
  0 <= f < 2 ^ 32 -> initialize_lights true f pin = None <-> 2 ^ 24 <= f mod 19162000.
Proof.
  intros Hf; rewrite initialize_lights_cases by exact Hf.
  destruct (f mod 19162000 * 256 <? 2 ^ 32) eqn:E.
  - apply Z.ltb_lt in E; split; [discriminate | lia].
  - apply Z.ltb_ge in E; split; [lia | reflexivity].
Qed.

Lemma clock_divisor_debug_panic_witness :
  (initialize_lights true 133000000 25 = None <-> 2 ^ 24 <= 133000000 mod 19162000) /\
  (initialize_lights true 125000000 25 = None <-> 2 ^ 24 <= 125000000 mod 19162000).
Proof. split; apply clock_divisor_debug_panic; lia. Defined.

(** Whenever the debug build does not panic, the divisor it programs,
    clkdiv_int + clkdiv_frac / 256, is the system clock over 871000 * 22
    rounded down to a multiple of 1/256. *)
Theorem clock_divisor_fixed_point (f pin : Z) (cfg : SmConfig) :
  0 <= f < 2 ^ 32 -> initialize_lights true f pin = Some cfg ->
  clkdiv_int cfg * 256 + clkdiv_frac cfg = 256 * f / 19162000.
Proof.
  intros Hf Hc; rewrite initialize_lights_cases in Hc by exact Hf.
  destruct (f mod 19162000 * 256 <? 2 ^ 32); [|discriminate].
  injection Hc as <-; cbn [clkdiv_int clkdiv_frac].
  assert (E : 256 * f = f / 19162000 * 256 * 19162000 + f mod 19162000 * 256)
    by (pose proof (Z.div_mod f 19162000 ltac:(lia)); lia).
  rewrite E, Z.div_add_l by lia; reflexivity.
Qed.

Lemma clock_divisor_fixed_point_witness :
  exists cfg, initialize_lights true 125000000 25 = Some cfg /\
              clkdiv_int cfg * 256 + clkdiv_frac cfg = 256 * 125000000 / 19162000.
Proof.
  eexists; split; [vm_compute; reflexivity|].
  apply (clock_divisor_fixed_point 125000000 25); [lia | vm_compute; reflexivity].
Defined.

(** Across every schedule of two concurrent frame writers, the [Tx::write]
    calls form whole frames of seven words, each writer's frames in its own
    order; a frame entered while the FIFO holds at most one word has all
    seven of its words accepted. *)
Theorem frame_calls_whole (v : Leds) :
  (forall la lb sched s, exec (start la lb) sched = Some s -> inside s = None ->
     exists entries, calls s = concat (map tagged_frame entries) /\
       frames_of WriterA entries ++ prog_a s = la /\
       frames_of WriterB entries ++ prog_b s = lb) /\
  (forall s w rest sched s', prog s w = v :: rest -> inside s = None ->
     (length (fifo s) <= 1)%nat -> exec s (SEnter w :: sched) = Some s' -> inside s' = None ->
     exists l, log s' = log s ++ map (fun x => (w, x, true)) (Leds_write_body v) ++ l).
Proof.
  split.
  - intros la lb sched s Hx Hn.
    assert (H0 : Frames la lb (start la lb)) by (exists []; repeat split).
    destruct (exec_Frames la lb sched _ s H0 Hx) as (entries & E1 & E2 & E3).
    exists entries; unfold pending_calls in E1; rewrite Hn, app_nil_r in E1; auto.
  - intros s w rest sched s' Hp Hi Hf Hx Hn; cbn [exec] in Hx.
    destruct (sys_step s (SEnter w)) as [s1|] eqn:E; [|discriminate].
    destruct s as [f l i pa pb]; cbn in Hp, Hi, Hf |- *; subst i.
    cbn in E; rewrite Hp in E; injection E as <-.
    destruct w; refine (exec_frame_accepted _ (Leds_write_body v) l sched _ s' []
                          (Leds_write_body v) _ eq_refl _ _ Hx Hn);
      cbn; rewrite ?app_nil_r; try reflexivity; unfold TX_FIFO_DEPTH; lia.
Qed.

Lemma frame_calls_whole_witness :
  exists l, log (exec_state (start [main_leds] []) (SEnter WriterA :: repeat SWrite 7 ++ [SExit])) =
    log (start [main_leds] []) ++
    map (fun x => (WriterA, x, true)) (Leds_write_body main_leds) ++ l.
Proof.
  refine (proj2 (frame_calls_whole main_leds) (start [main_leds] []) WriterA []
            (repeat SWrite 7 ++ [SExit]) _ _ _ _ _ _).
  - reflexivity.
  - reflexivity.
  - cbn; lia.
  - vm_compute; reflexivity.
  - vm_compute; reflexivity.
Defined.

End LightsMore.
